(** * research_paper_finder: relevance filter, scorer, title similarity,
      duplicate detection and ranking

    A shallow embedding of [ResearchPaperFinder] (research_paper_finder.py):
    [is_relevant_to_cervical_cancer], [calculate_relevance_score],
    [calculate_similarity], [detect_duplicates] and the ranking step of
    [search_all_sources].

    Conventions of the embedding.
    - A Python [str] is a list of characters; a character is a code point
      below 256, so the model covers text in ASCII and Latin-1.  [lower],
      [strip] and the word-character class of [re] are Python's tables on
      these code points: [lower_char], [is_space] and [is_word_char] agree
      with [str.lower], [str.isspace] and [\w] on each of them.
    - A Python [int] is a [Z]; an index or a length is a [nat].
    - A Python [dict] keeps its keys in insertion order; it is an
      association list without repeated keys ([dict_set] overwrites in
      place or appends).
    - A paper is a dict with the keys the finder reads.  A key that the
      code reads through [in] / [.get] is an [option] field.
    - The records handed to [detect_duplicates] are distinct objects that
      share no [links] dict (each adapter builds a fresh dict per hit), so
      in-place updates are modelled on values.
    - [SequenceMatcher.ratio] returns the float [2.0 * matches / length];
      it is modelled by the exact rational.  The test [> 0.85] on the float
      agrees with the test on the rational as long as the two titles
      together are shorter than 2^48 characters. *)

From Stdlib Require Import String Ascii.
From Stdlib Require Import List Arith ZArith QArith Lia Bool.
From Stdlib Require Import Permutation Sorted.
Import ListNotations.
Close Scope Q_scope.
Open Scope nat_scope.

Set Implicit Arguments.

(* ================================================================== *)
(** * Strings *)

Definition str := list ascii.

(** A string literal. *)
Definition s_ (x : string) : str := list_ascii_of_string x.

Fixpoint str_eqb (x y : str) : bool :=
  match x, y with
  | [], [] => true
  | c :: x', d :: y' => Ascii.eqb c d && str_eqb x' y'
  | _, _ => false
  end.

Definition in_range (lo hi : nat) (c : ascii) : bool :=
  let n := nat_of_ascii c in (lo <=? n) && (n <=? hi).

(** [str.lower()] on one character: 'A'..'Z' go to 'a'..'z', and the
    upper-case letters of Latin-1, U+00C0..U+00DE without the
    multiplication sign U+00D7, go to U+00E0..U+00FE.  On text of these
    code points [str.lower()] works character by character. *)
Definition lower_char (c : ascii) : ascii :=
  if in_range 65 90 c || in_range 192 214 c || in_range 216 222 c
  then ascii_of_nat (nat_of_ascii c + 32)
  else c.

Definition lower (s : str) : str := map lower_char s.

(** [str.isspace()], the characters [str.strip()] removes: TAB, LF, VT,
    FF, CR, FS, GS, RS, US, space, NEL (U+0085) and the no-break space
    (U+00A0). *)
Definition is_space (c : ascii) : bool :=
  in_range 9 13 c || in_range 28 32 c
  || in_range 133 133 c || in_range 160 160 c.

Fixpoint lstrip (s : str) : str :=
  match s with
  | c :: s' => if is_space c then lstrip s' else s
  | [] => []
  end.

Definition rstrip (s : str) : str := rev (lstrip (rev s)).

(** [str.strip()] *)
Definition strip (s : str) : str := rstrip (lstrip s).

Fixpoint startswith (s p : str) {struct p} : bool :=
  match p, s with
  | [], _ => true
  | c :: p', d :: s' => Ascii.eqb c d && startswith s' p'
  | _ :: _, [] => false
  end.

(** [term in s]: [term] occurs in [s] as a contiguous substring. *)
Fixpoint contains (s term : str) : bool :=
  startswith s term ||
  match s with
  | [] => false
  | _ :: s' => contains s' term
  end.

(* ================================================================== *)
(** * RelevanceClassifier: [is_relevant_to_cervical_cancer] *)

Definition relevant_terms : list str :=
  map s_
    [ "cervical cancer"; "cervix"; "cervical"; "colposcopy"; "pap smear";
      "hpv"; "human papillomavirus"; "cin";
      "cervical intraepithelial neoplasia";
      "precancerous lesions"; "cervical screening"; "who colposcopy";
      "iarc colposcopy" ]%string.

Definition is_relevant_to_cervical_cancer (text : str) : bool :=
  let text_lower := lower text in
  existsb (fun term => contains text_lower term) relevant_terms.

(* ================================================================== *)
(** * RelevanceScorer: [calculate_relevance_score] *)

(** The class [\w] of [re] for a [str] pattern: the ASCII letters and
    digits, the underscore, and the alphanumeric characters of Latin-1:
    the ordinal indicators U+00AA and U+00BA, the superscripts U+00B2,
    U+00B3 and U+00B9, the micro sign U+00B5, the fractions
    U+00BC..U+00BE, and the letters U+00C0..U+00FF without the
    multiplication sign U+00D7 and the division sign U+00F7. *)
Definition is_word_char (c : ascii) : bool :=
  in_range 97 122 c || in_range 65 90 c || in_range 48 57 c
  || Ascii.eqb c "_"%char
  || in_range 170 170 c || in_range 178 179 c || in_range 181 181 c
  || in_range 185 186 c || in_range 188 190 c
  || in_range 192 214 c || in_range 216 246 c || in_range 248 255 c.

Definition is_word (c : option ascii) : bool :=
  match c with
  | Some x => is_word_char x
  | None => false
  end.

(** [\b] between the character [prev] before a position and the character
    [next] at it ([None] at either end of the text): exactly one of the two
    is a word character. *)
Definition word_boundary (prev next : option ascii) : bool :=
  xorb (is_word prev) (is_word next).

(** The character before the position that follows [kw], when [kw] was
    matched right after [prev]. *)
Definition last_before (prev : option ascii) (kw : str) : option ascii :=
  match rev kw with
  | c :: _ => Some c
  | [] => prev
  end.

(** One attempt of the pattern [\b kw \b] (the keyword escaped, so read
    literally) at the head of [s], [prev] being the character before. *)
Definition match_here (kw : str) (prev : option ascii) (s : str) : bool :=
  word_boundary prev (hd_error s)
  && startswith s kw
  && word_boundary (last_before prev kw) (hd_error (skipn (length kw) s)).

(** [re.findall] for a non-empty literal keyword: the scan goes left to
    right, a match at a position is recorded and the scan resumes right
    after it (matches never overlap); [skip] counts the characters of the
    last match still to step over, [pos] is the index of the head of [s].
    The result lists the start index of each match. *)
Fixpoint findall_from (kw : str) (prev : option ascii) (s : str)
    (skip pos : nat) : list nat :=
  match s with
  | [] => []
  | c :: s' =>
      match skip with
      | S k => findall_from kw (Some c) s' k (S pos)
      | O =>
          if match_here kw prev s
          then pos :: findall_from kw (Some c) s' (length kw - 1) (S pos)
          else findall_from kw (Some c) s' 0 (S pos)
      end
  end.

Definition findall (kw text : str) : list nat :=
  findall_from kw None text 0 0.

(** The keyword table, in the order the dict literal lists it. *)
Definition keywords : list (str * Z) :=
  [ (s_ "iarc colposcopy database", 5%Z);
    (s_ "who colposcopy", 5%Z);
    (s_ "iarcimagebankolpo", 5%Z);
    (s_ "colposcopy image", 4%Z);
    (s_ "cervical cancer", 3%Z);
    (s_ "colposcopy", 3%Z);
    (s_ "cervical", 2%Z);
    (s_ "hpv", 2%Z);
    (s_ "screening", 1%Z);
    (s_ "dataset", 1%Z) ].

Definition calculate_relevance_score (title abstract : str) : Z :=
  let text := lower (title ++ s_ " " ++ abstract) in
  fold_left
    (fun score kw =>
       let count := Z.of_nat (length (findall (fst kw) text)) in
       (score + count * snd kw)%Z)
    keywords 0%Z.

(** The property the scorer is specified by: [kw] occurs in [text] at index
    [p], and neither the character before the occurrence nor the one after
    it is a word character. *)
Definition wb_occurrence (kw text : str) (p : nat) : Prop :=
  exists pre post,
    text = pre ++ kw ++ post /\ length pre = p
    /\ is_word (hd_error (rev pre)) = false
    /\ is_word (hd_error post) = false.

(* ================================================================== *)
(** * TitleSimilarity: [difflib.SequenceMatcher(None, a, b).ratio()]

    The matcher of Python's standard library, as [calculate_similarity]
    calls it: no junk predicate ([isjunk] is [None], so [bjunk] is empty and
    the two loops that absorb junk never run) and [autojunk] left on. *)

Module SequenceMatcher.

(** A matching block [(i, j, k)]: [a[i:i+k] == b[j:j+k]]. *)
Definition Match := (nat * nat * nat)%type.

Definition NUL : ascii := "000"%char.

(** The indices of [c] in [s], ascending; [pos] is the index of the head. *)
Fixpoint indices_from (c : ascii) (s : str) (pos : nat) : list nat :=
  match s with
  | [] => []
  | x :: s' =>
      if Ascii.eqb x c then pos :: indices_from c s' (S pos)
      else indices_from c s' (S pos)
  end.

(** [j2len.get(j, 0)] *)
Fixpoint j2len_get (j2len : list (nat * nat)) (j : nat) : nat :=
  match j2len with
  | [] => 0
  | (j', k) :: rest => if j' =? j then k else j2len_get rest j
  end.

Section Matcher.

Variables a b : str.

(** [__chain_b]: [b2j[c]] lists the indices of [c] in [b]; with at least
    200 characters in [b], a character that occurs more than
    [len(b) // 100 + 1] times is "popular" and loses its entry. *)
Definition popular (c : ascii) : bool :=
  let n := length b in
  (200 <=? n) && (n / 100 + 1 <? length (indices_from c b 0)).

(** [b2j.get(c, [])] *)
Definition b2j (c : ascii) : list nat :=
  if popular c then [] else indices_from c b 0.

(** The loop [for j in b2j.get(a[i], nothing)] of [find_longest_match]:
    the state is the best block so far and [newj2len].  [j2len.get(j-1, 0)]
    is 0 for [j = 0], no key being negative. *)
Fixpoint row (i : nat) (j2len : list (nat * nat)) (blo bhi : nat)
    (js : list nat) (st : Match * list (nat * nat))
  : Match * list (nat * nat) :=
  match js with
  | [] => st
  | j :: js' =>
      if j <? blo then row i j2len blo bhi js' st
      else if bhi <=? j then st
      else
        let '((besti, bestj, bestsize), newj2len) := st in
        let k := match j with
                 | O => 0
                 | S j' => j2len_get j2len j'
                 end + 1 in
        let newj2len := (j, k) :: newj2len in
        if bestsize <? k
        then row i j2len blo bhi js' ((i + 1 - k, j + 1 - k, k), newj2len)
        else row i j2len blo bhi js' ((besti, bestj, bestsize), newj2len)
  end.

(** The loop [for i in range(alo, ahi)]. *)
Definition rows (alo ahi blo bhi : nat) : Match * list (nat * nat) :=
  fold_left
    (fun st i => row i (snd st) blo bhi (b2j (nth i a NUL)) (fst st, []))
    (seq alo (ahi - alo))
    ((alo, blo, 0), []).

(** [while besti > alo and bestj > blo and a[besti-1] == b[bestj-1]] *)
Fixpoint extend_back (alo blo besti bestj bestsize : nat) : Match :=
  match besti, bestj with
  | S i', S j' =>
      if (alo <? besti) && (blo <? bestj)
         && Ascii.eqb (nth i' a NUL) (nth j' b NUL)
      then extend_back alo blo i' j' (bestsize + 1)
      else (besti, bestj, bestsize)
  | _, _ => (besti, bestj, bestsize)
  end.

(** [while besti+bestsize < ahi and bestj+bestsize < bhi and
    a[besti+bestsize] == b[bestj+bestsize]]; every turn adds one to
    [bestsize], so [ahi - (besti + bestsize)] turns are all there can be. *)
Fixpoint extend_fwd (turns ahi bhi besti bestj bestsize : nat) : nat :=
  match turns with
  | O => bestsize
  | S t =>
      if (besti + bestsize <? ahi) && (bestj + bestsize <? bhi)
         && Ascii.eqb (nth (besti + bestsize) a NUL)
                      (nth (bestj + bestsize) b NUL)
      then extend_fwd t ahi bhi besti bestj (bestsize + 1)
      else bestsize
  end.

Definition find_longest_match (alo ahi blo bhi : nat) : Match :=
  let '(besti, bestj, bestsize) := fst (rows alo ahi blo bhi) in
  let '(besti, bestj, bestsize) :=
    extend_back alo blo besti bestj bestsize in
  let bestsize :=
    extend_fwd (ahi - (besti + bestsize)) ahi bhi besti bestj bestsize in
  (besti, bestj, bestsize).

(** The blocks [get_matching_blocks] collects for [a[alo:ahi]] and
    [b[blo:bhi]], in the order [matching_blocks.sort()] leaves them: the
    blocks left of the longest match, the match, the blocks right of it.
    Each call works on a strictly shorter range of [a], so [ahi - alo]
    nested calls are all there can be
    ([SequenceMatcherBounds.blocks_fuel]). *)
Fixpoint blocks (fuel alo ahi blo bhi : nat) : list Match :=
  match fuel with
  | O => []
  | S f =>
      let '(i, j, k) := find_longest_match alo ahi blo bhi in
      if k =? 0 then []
      else
        (if (alo <? i) && (blo <? j) then blocks f alo i blo j else [])
        ++ [(i, j, k)]
        ++ (if (i + k <? ahi) && (j + k <? bhi)
            then blocks f (i + k) ahi (j + k) bhi else [])
  end.

(** The loop that collapses adjacent blocks; the state is
    [((i1, j1, k1), non_adjacent)]. *)
Definition collapse_step (st : Match * list Match) (m : Match)
  : Match * list Match :=
  let '((i1, j1, k1), non_adjacent) := st in
  let '(i2, j2, k2) := m in
  if (i1 + k1 =? i2) && (j1 + k1 =? j2)
  then ((i1, j1, k1 + k2), non_adjacent)
  else ((i2, j2, k2),
        if k1 =? 0 then non_adjacent else non_adjacent ++ [(i1, j1, k1)]).

Definition get_matching_blocks : list Match :=
  let la := length a in
  let lb := length b in
  let matching_blocks := blocks la 0 la 0 lb in
  let '((i1, j1, k1), non_adjacent) :=
    fold_left collapse_step matching_blocks ((0, 0, 0), []) in
  let non_adjacent :=
    if k1 =? 0 then non_adjacent else non_adjacent ++ [(i1, j1, k1)] in
  non_adjacent ++ [(la, lb, 0)].

(** [sum(triple[-1] for triple in self.get_matching_blocks())] *)
Definition matches : nat :=
  fold_left (fun acc (m : Match) => acc + snd m) get_matching_blocks 0.

(** [_calculate_ratio(matches, len(a) + len(b))] *)
Definition ratio : Q :=
  let len := length a + length b in
  if len =? 0 then 1%Q
  else (Z.of_nat (2 * matches) # Pos.of_nat len)%Q.

End Matcher.

End SequenceMatcher.

Definition calculate_similarity (title1 title2 : str) : Q :=
  SequenceMatcher.ratio (lower title1) (lower title2).

(** [x > y] on ratios. *)
Definition Qgtb (x y : Q) : bool := negb (Qle_bool x y).

(* ================================================================== *)
(** * Dicts and papers *)

Definition dict (V : Type) := list (str * V).

(** [d.get(k)] *)
Fixpoint dict_get {V : Type} (d : dict V) (k : str) : option V :=
  match d with
  | [] => None
  | (k', v) :: d' => if str_eqb k' k then Some v else dict_get d' k
  end.

(** [d[k] = v]: an existing key keeps its place, a new key goes last. *)
Fixpoint dict_set {V : Type} (d : dict V) (k : str) (v : V) : dict V :=
  match d with
  | [] => [(k, v)]
  | (k', v') :: d' =>
      if str_eqb k' k then (k', v) :: d' else (k', v') :: dict_set d' k v
  end.

(** [d.update(other)] *)
Definition dict_update {V : Type} (d other : dict V) : dict V :=
  fold_left (fun acc kv => dict_set acc (fst kv) (snd kv)) other d.

Definition dict_keys {V : Type} (d : dict V) : list str := map fst d.
Definition dict_values {V : Type} (d : dict V) : list V := map snd d.

(** [k in d] *)
Definition dict_has {V : Type} (d : dict V) (k : str) : bool :=
  match dict_get d k with
  | Some _ => true
  | None => false
  end.

(** A paper as the adapters build it and [detect_duplicates] reads it.
    ['title'] is read by subscript and is always there; ['relevance_score'],
    ['links'] and ['duplicate_count'] are read through [.get] or [in] and
    may be absent.  [source] stands for the fields the finder only passes
    along. *)
Record paper : Type := mkPaper {
  title : str;
  source : str;
  relevance_score : option Z;
  links : option (dict str);
  duplicate_count : option Z
}.

(** [paper.get('relevance_score', 0)] *)
Definition get_score (p : paper) : Z :=
  match relevance_score p with
  | Some z => z
  | None => 0%Z
  end.

Definition set_links (p : paper) (l : dict str) : paper :=
  mkPaper (title p) (source p) (relevance_score p) (Some l)
          (duplicate_count p).

Definition set_duplicate_count (p : paper) (n : Z) : paper :=
  mkPaper (title p) (source p) (relevance_score p) (links p) (Some n).

(* ================================================================== *)
(** * DuplicateResolver: [detect_duplicates] *)

(** The key of the first pass: [paper['title'].lower().strip()]. *)
Definition title_key (p : paper) : str := strip (lower (title p)).

(** [stored['links'].update(p.get('links', {}))] under the guard
    ['links' in p and 'links' in stored]: the record stored under the title
    after the in-place update of its links. *)
Definition merged_into (stored p : paper) : paper :=
  match links p, links stored with
  | Some lp, Some ls => set_links stored (dict_update ls lp)
  | _, _ => stored
  end.

(** One turn of the first loop.  The stored record takes the links of the
    new paper; when the new paper then scores higher it replaces the stored
    record in the dict, else the stored record stays. *)
Definition exact_step (unique_by_title : dict paper) (p : paper)
  : dict paper :=
  let t := title_key p in
  match dict_get unique_by_title t with
  | Some stored =>
      let stored := merged_into stored p in
      if (get_score stored <? get_score p)%Z
      then dict_set unique_by_title t p
      else dict_set unique_by_title t stored
  | None => dict_set unique_by_title t p
  end.

(** Every key of the dict is the key of the record stored under it, and no
    key is repeated. *)
Definition keyed (u : dict paper) : Prop :=
  NoDup (dict_keys u) /\ forall k p, In (k, p) u -> k = title_key p.

(** First pass: [list(unique_by_title.values())] after the loop. *)
Definition exact_pass (results : list paper) : list paper :=
  dict_values (fold_left exact_step results []).

Definition threshold : Q := (85 # 100)%Q.

(** [self.calculate_similarity(paper1['title'], paper2['title']) > 0.85] *)
Definition similar (paper1 paper2 : paper) : bool :=
  Qgtb (calculate_similarity (title paper1) (title paper2)) threshold.

(** [j in processed_indices] *)
Definition processed (j : nat) (processed_indices : list nat) : bool :=
  existsb (Nat.eqb j) processed_indices.

(** [max(duplicates, key=lambda x: x.get('relevance_score', 0))]: the first
    of the papers with the highest score. *)
Definition max_by_score (first : paper) (rest : list paper) : paper :=
  fold_left
    (fun best x => if (get_score best <? get_score x)%Z then x else best)
    rest first.

(** The loop over [duplicates] that fills [all_links]. *)
Definition merge_links (duplicates : list paper) : dict str :=
  fold_left
    (fun all_links dup =>
       match links dup with
       | Some l => dict_update all_links l
       | None => all_links
       end)
    duplicates [].

(** What one cluster appends to [fuzzy_unique]. *)
Definition resolve_cluster (paper1 : paper) (duplicates : list paper)
  : paper :=
  if 1 <? length duplicates then
    let best_paper :=
      match duplicates with
      | d :: ds => max_by_score d ds
      | [] => paper1
      end in
    let all_links := merge_links duplicates in
    let best_paper :=
      match all_links with
      | [] => best_paper
      | _ :: _ => set_links best_paper all_links
      end in
    set_duplicate_count best_paper (Z.of_nat (length duplicates))
  else paper1.

Section FuzzyScan.

(** [similar_to] is the test of the inner loop and [emit] is what a cluster
    contributes to the result; [detect_duplicates] takes [similar] and
    [resolve_cluster]. *)
Variable similar_to : paper -> paper -> bool.
Variable A : Type.
Variable emit : paper -> list paper -> A.
Variable titles : list paper.

(** One turn of [for j in range(i+1, len(titles))]; the state is
    [(duplicates, processed_indices)]. *)
Definition scan_step (paper1 : paper) (st : list paper * list nat)
    (j : nat) : list paper * list nat :=
  let '(duplicates, processed_indices) := st in
  if processed j processed_indices then st
  else
    let paper2 := nth j titles paper1 in
    if similar_to paper1 paper2
    then (duplicates ++ [paper2], j :: processed_indices)
    else st.

(** One turn of [for i in range(len(titles))]; the state is
    [(fuzzy_unique, processed_indices)].  [titles[i]] is always in range. *)
Definition anchor_step (st : list A * list nat) (i : nat)
  : list A * list nat :=
  let '(fuzzy_unique, processed_indices) := st in
  if processed i processed_indices then st
  else
    match nth_error titles i with
    | None => st
    | Some paper1 =>
        let '(duplicates, processed_indices) :=
          fold_left (scan_step paper1)
                    (seq (i + 1) (length titles - (i + 1)))
                    ([paper1], i :: processed_indices) in
        (fuzzy_unique ++ [emit paper1 duplicates], processed_indices)
    end.

Definition fuzzy_scan : list A :=
  fst (fold_left anchor_step (seq 0 (length titles)) ([], [])).

End FuzzyScan.

(** Second pass. *)
Definition fuzzy_pass (titles : list paper) : list paper :=
  fuzzy_scan similar resolve_cluster titles.

(** The clusters of the second pass: the [duplicates] list of every anchor,
    in the order the anchors are met. *)
Definition fuzzy_clusters (titles : list paper) : list (list paper) :=
  fuzzy_scan similar (fun _ duplicates => duplicates) titles.

Definition detect_duplicates (results : list paper) : list paper :=
  fuzzy_pass (exact_pass results).

(** The second pass by recursion on the list: the anchor takes the later
    papers that are similar to it, the others are scanned in turn.  [fuel]
    bounds the number of clusters. *)
Fixpoint anchor_scan (similar_to : paper -> paper -> bool) {A : Type}
    (emit : paper -> list paper -> A) (fuel : nat) (l : list paper)
  : list A :=
  match fuel, l with
  | S f, p :: rest =>
      emit p (p :: filter (similar_to p) rest)
      :: anchor_scan similar_to emit f
           (filter (fun q => negb (similar_to p q)) rest)
  | _, _ => []
  end.

(** The papers of [s] whose index is not in [processed_indices]; [pos] is
    the index of the head of [s]. *)
Fixpoint pending (processed_indices : list nat) (pos : nat)
    (s : list paper) : list paper :=
  match s with
  | [] => []
  | p :: s' =>
      if processed pos processed_indices
      then pending processed_indices (S pos) s'
      else p :: pending processed_indices (S pos) s'
  end.

(* ================================================================== *)
(** * AggregationPipeline: the ranking of [search_all_sources] *)

(** [list.sort(key=..., reverse=True)] is a stable sort: papers come out
    by descending key, and papers with equal keys keep their order.  It is
    modelled by the insertion sort with that property. *)
Fixpoint insert_desc (x : paper) (l : list paper) : list paper :=
  match l with
  | [] => [x]
  | y :: l' =>
      if (get_score x <? get_score y)%Z then y :: insert_desc x l'
      else x :: l
  end.

Definition sort_by_score_desc (l : list paper) : list paper :=
  fold_right insert_desc [] l.

(** [search_all_sources] from the point where the adapters have returned:
    [all_results] is the concatenation of their batches. *)
Definition search_all_sources (all_results : list paper) : list paper :=
  let unique_results := detect_duplicates all_results in
  sort_by_score_desc unique_results.

(** Papers by descending score. *)
Definition score_ge (p q : paper) : Prop := (get_score q <= get_score p)%Z.

(** The papers with score [v]. *)
Definition has_score (v : Z) (p : paper) : bool := (get_score p =? v)%Z.

(* ================================================================== *)
(** * Invariants of the matcher

    What the proofs about [find_longest_match] keep track of. *)

Module MatcherInv.
Import SequenceMatcher.

(** [j2len.get(j-1, 0)] as the inner loop reads it. *)
Definition prev (j2len : list (nat * nat)) (j : nat) : nat :=
  match j with
  | O => 0
  | S j' => j2len_get j2len j'
  end.

Definition listed (x : nat) (js : list nat) : bool := existsb (Nat.eqb x) js.

Section Self.

(** The matcher run on [s] against itself. *)
Variable s : str.

(** The character at [i] kept its entry in [b2j]. *)
Definition live (i : nat) : bool := negb (popular s (nth i s NUL)).

(** The length of the run of characters with an entry that ends at [i]. *)
Fixpoint run (i : nat) : nat :=
  match i with
  | O => if live 0 then 1 else 0
  | S i' => if live i then S (run i') else 0
  end.

Definition run_before (i : nat) : nat :=
  match i with
  | O => 0
  | S i' => run i'
  end.

(** The state of the loop over the rows before row [i]. *)
Definition rows_inv (i : nat) (st : Match * list (nat * nat)) : Prop :=
  exists bi bs,
    fst st = (bi, bi, bs)
    /\ bi + bs <= i
    /\ (forall i', i' < i -> run i' <= bs)
    /\ (forall j, prev (snd st) j <= run_before j)
    /\ (forall j, prev (snd st) j <= run_before i)
    /\ prev (snd st) i = run_before i.

End Self.

Section Ranges.

Variables alo blo bhi : nat.

(** A block inside [a[alo:hi]] and [b[blo:bhi]]. *)
Definition in_range_block (hi : nat) (m : Match) : Prop :=
  let '(i, j, k) := m in
  alo <= i /\ i + k <= hi /\ blo <= j /\ j + k <= bhi.

(** An entry of [j2len] during row [i]: a length that fits before the end
    of the row and of the column. *)
Definition in_range_len (i : nat) (j2len : list (nat * nat)) : Prop :=
  forall x, j2len_get j2len x <= i - alo
            /\ j2len_get j2len x <= x + 1 - blo
            /\ (0 < j2len_get j2len x -> x < bhi).

End Ranges.

End MatcherInv.

(* ================================================================== *)
(** * Keywords the scan reads as the specification does *)

(** A keyword the scan handles as the specification reads it: it starts and
    ends with a word character, and no proper suffix that starts right
    after a non-word character is a prefix of it (so two word-bounded
    occurrences never overlap). *)
Definition plain_keyword (kw : str) : bool :=
  is_word (hd_error kw)
  && is_word (hd_error (rev kw))
  && forallb
       (fun d => is_word (hd_error (rev (firstn d kw)))
                 || negb (startswith kw (skipn d kw)))
       (seq 1 (length kw - 1)).

(** The scan is inside a match: the text before the position ends with
    the first characters of the keyword and goes on with its last [skip]
    characters. *)
Definition in_match (kw pre s : str) (skip : nat) : Prop :=
  skip = 0
  \/ (skip < length kw
      /\ exists pre0,
           pre = pre0 ++ firstn (length kw - skip) kw
           /\ startswith s (skipn (length kw - skip) kw) = true).

(* ================================================================== *)
(** * Clusters and their results *)

(** The paper [hd] falls back on; no cluster is empty. *)
Definition no_paper : paper := mkPaper [] [] None None None.

(** The anchor of a cluster is its first paper. *)
Definition anchor (cluster : list paper) : paper := hd no_paper cluster.

(** What the second pass returns for a cluster. *)
Definition cluster_result (cluster : list paper) : paper :=
  resolve_cluster (anchor cluster) cluster.

(** [o] carries the title and the score of [r]. *)
Definition same_identity (o r : paper) : Prop :=
  title o = title r /\ relevance_score o = relevance_score r.

(** No paper of a cluster scores higher than the cluster's anchor. *)
Definition anchor_wins (c : list paper) : Prop :=
  Forall (fun m => (get_score m <= get_score (anchor c))%Z) c.

(* ================================================================== *)
(** * Example inputs *)

(** The two records of the case-only example: the same title up to case,
    scores 3 and 5, one link each. *)
Definition hpv_mixed : paper :=
  mkPaper (s_ "HPV and Cervical Cancer Screening") (s_ "Google Scholar")
          (Some 3%Z) (Some [(s_ "pdf", s_ "https://a.example/p.pdf")]) None.

Definition hpv_lower : paper :=
  mkPaper (s_ "hpv and cervical cancer screening") (s_ "PubMed")
          (Some 5%Z)
          (Some [(s_ "pubmed", s_ "https://pubmed.ncbi.nlm.nih.gov/1/")])
          None.

(** Three titles in a chain: the first and the second are similar, the
    second and the third are similar, the first and the third are not
    (ratios 62/67, 68/74 and 62/73). *)
Definition chain_paper (t : string) (score : Z) : paper :=
  mkPaper (s_ t) (s_ "arXiv") (Some score) (Some []) None.

Definition chain_a (score : Z) : paper :=
  chain_paper "HPV testing in cervical screening" score.
Definition chain_b (score : Z) : paper :=
  chain_paper "HPV testing for cervical screening" score.
Definition chain_c (score : Z) : paper :=
  chain_paper "HPV testing for cervical screening trial" score.

(** Characters above 127: the letter e with acute accent, lower and upper
    case (U+00E9, U+00C9), and the no-break space (U+00A0). *)
Definition e_acute : ascii := ascii_of_nat 233.
Definition E_acute : ascii := ascii_of_nat 201.
Definition nbsp : ascii := ascii_of_nat 160.

(* ================================================================== *)
(** * Candidates: what an adapter keeps of a hit

    [search_google_scholar], [search_pubmed] and [search_arxiv] fetch and
    parse; for every hit they then run the same test and build the same
    dict.  A candidate is a parsed hit: its title, its summary (the
    snippet of Google Scholar), the name of the source and the links
    extracted for it. *)

Record candidate : Type := mkCandidate {
  c_title : str;
  c_summary : str;
  c_source : str;
  c_links : dict str
}.

(** [if self.is_relevant_to_cervical_cancer(title) or
    self.is_relevant_to_cervical_cancer(summary): paper = {...}]; [None]
    when the hit is dropped. *)
Definition keep_hit (c : candidate) : option paper :=
  if is_relevant_to_cervical_cancer (c_title c)
     || is_relevant_to_cervical_cancer (c_summary c)
  then Some (mkPaper (c_title c) (c_source c)
               (Some (calculate_relevance_score (c_title c) (c_summary c)))
               (Some (c_links c)) None)
  else None.

(** The [papers] list an adapter returns for the hits of one query. *)
Fixpoint keep_hits (hits : list candidate) : list paper :=
  match hits with
  | [] => []
  | c :: hits' =>
      match keep_hit c with
      | Some p => p :: keep_hits hits'
      | None => keep_hits hits'
      end
  end.

(** [all_results] of [search_all_sources]: the batches of the adapters,
    one after the other ([all_results.extend(...)]). *)
Definition collect (batches : list (list candidate)) : list paper :=
  flat_map keep_hits batches.

(** [search_all_sources] on the parsed hits of all queries. *)
Definition search_hits (batches : list (list candidate)) : list paper :=
  search_all_sources (collect batches).

(* ================================================================== *)
(** * Presentation: [format_authors], [format_links] and the notes of
      [main] *)

(** [sep.join(parts)] *)
Fixpoint join (sep : str) (parts : list str) : str :=
  match parts with
  | [] => []
  | x :: rest =>
      match rest with
      | [] => x
      | _ :: _ => x ++ sep ++ join sep rest
      end
  end.

(** The exceptions [format_authors] can raise. *)
Inductive py_error : Type :=
  | AttributeError   (* a [str] has no [get] *)
  | TypeError.       (* [join] met an item that is no [str] *)

Inductive result (A : Type) : Type :=
  | Ok (a : A)
  | Raise (e : py_error).

Arguments Ok {A} a.
Arguments Raise {A} e.

(** An item of an authors list: a dict (PubMed) or a name (arXiv). *)
Inductive author : Type :=
  | AuthorDict (d : dict str)
  | AuthorName (name : str).

(** What [format_authors] is handed: [None], a list or a text. *)
Inductive authors_value : Type :=
  | AuthorsNone
  | AuthorsList (l : list author)
  | AuthorsText (s : str).

(** [author.get('name', '') for author in authors] *)
Fixpoint names_of_dicts (l : list author) : result (list str) :=
  match l with
  | [] => Ok []
  | AuthorDict d :: l' =>
      match names_of_dicts l' with
      | Ok names =>
          Ok (match dict_get d (s_ "name") with
              | Some n => n
              | None => []
              end :: names)
      | Raise e => Raise e
      end
  | AuthorName _ :: _ => Raise AttributeError
  end.

(** The items of [', '.join(authors)], which must all be [str]. *)
Fixpoint names_of_strings (l : list author) : result (list str) :=
  match l with
  | [] => Ok []
  | AuthorName n :: l' =>
      match names_of_strings l' with
      | Ok names => Ok (n :: names)
      | Raise e => Raise e
      end
  | AuthorDict _ :: _ => Raise TypeError
  end.

Definition format_authors (authors : authors_value) : result str :=
  match authors with
  | AuthorsNone => Ok (s_ "No authors listed")
  | AuthorsList [] => Ok (s_ "No authors listed")
  | AuthorsText [] => Ok (s_ "No authors listed")
  | AuthorsList ((AuthorDict _ :: _) as l) =>
      match names_of_dicts l with
      | Ok names => Ok (join (s_ ", ") names)
      | Raise e => Raise e
      end
  | AuthorsList ((AuthorName _ :: _) as l) =>
      match names_of_strings l with
      | Ok names => Ok (join (s_ ", ") names)
      | Raise e => Raise e
      end
  | AuthorsText s => Ok s
  end.

(** The characters of the alphabet whose title case is not one character
    of it: the sharp s (U+00DF) has "Ss", the micro sign (U+00B5) has
    U+039C and the y with diaeresis (U+00FF) has U+0178. *)
Definition sharp_s : ascii := ascii_of_nat 223.

(** The title case of a character, which [str.capitalize()] gives the
    first one: 'a'..'z' and the lower-case letters U+00E0..U+00FE of
    Latin-1 (without the division sign U+00F7) go to their upper-case
    letter, the sharp s goes to "Ss".  The title case of the micro sign
    and of the y with diaeresis lies outside the alphabet; the two are
    left as they are, and what is proved of [capitalize] by its value
    leaves them out. *)
Definition title_char (c : ascii) : str :=
  if Ascii.eqb c sharp_s then s_ "Ss"
  else if in_range 97 122 c || in_range 224 246 c || in_range 248 254 c
       then [ascii_of_nat (nat_of_ascii c - 32)]
       else [c].

(** [str.capitalize()]: the first character in title case, the rest in
    lower case. *)
Definition capitalize (s : str) : str :=
  match s with
  | [] => []
  | c :: rest => title_char c ++ lower rest
  end.

Definition link_labels : dict str :=
  [ (s_ "main", s_ "Paper URL");
    (s_ "pdf", s_ "PDF Download");
    (s_ "pubmed", s_ "PubMed Page");
    (s_ "fulltext", s_ "Full Text");
    (s_ "doi", s_ "DOI Link");
    (s_ "citations", s_ "Citations") ].

(** [link_labels.get(key, key.capitalize())] *)
Definition link_label (key : str) : str :=
  match dict_get link_labels key with
  | Some label => label
  | None => capitalize key
  end.

(** [f"{label}: {url}"] *)
Definition link_line (kv : str * str) : str :=
  link_label (fst kv) ++ s_ ": " ++ snd kv.

Definition LF : ascii := "010"%char.

(** The separator ["\n      "]. *)
Definition line_sep : str := LF :: s_ "      ".

(** [format_links(links)]; [None] stands for a missing or [None] value,
    which [not links] treats like the empty dict. *)
Definition format_links (links : option (dict str)) : str :=
  match links with
  | None => s_ "No links available"
  | Some [] => s_ "No links available"
  | Some ((_ :: _) as l) => join line_sep (map link_line l)
  end.

(** ['duplicate_count' in paper and paper['duplicate_count'] > 1]: [main]
    prints the note on combined entries. *)
Definition shows_duplicate_note (p : paper) : bool :=
  match duplicate_count p with
  | Some n => (1 <? n)%Z
  | None => false
  end.

(** ['links' in paper and paper['links']]: the text [main] prints under
    "Links:", [None] when it prints none. *)
Definition links_display (p : paper) : option str :=
  match links p with
  | Some ((_ :: _) as l) => Some (format_links (Some l))
  | _ => None
  end.

(** The number of occurrences of [c] in [s]. *)
Definition count_char (c : ascii) (s : str) : nat :=
  length (filter (Ascii.eqb c) s).

(* ================================================================== *)
(** * Notions the further properties are stated with *)

(** The paper a cluster of two or more returns, before its links and its
    count are set. *)
Definition winner (cluster : list paper) : paper :=
  match cluster with
  | d :: ds => max_by_score d ds
  | [] => no_paper
  end.

(** The keys [links] and [relevance_score] are there. *)
Definition has_fields (p : paper) : Prop :=
  links p <> None /\ relevance_score p <> None.

(** [sum(triple[-1] for triple in blocks)] *)
Definition total_size (l : list (nat * nat * nat)) : nat :=
  fold_left (fun acc m => acc + snd m) l 0.

(** The dict holds, under some key, a record with the title key of [r] that
    scores at least as high as [r]. *)
Definition covered (u : dict paper) (r : paper) : Prop :=
  exists k o,
    In (k, o) u /\ title_key o = title_key r
    /\ (get_score r <= get_score o)%Z.

(** The text [format_authors] shows for an item of a list it accepts. *)
Definition author_text (a : author) : str :=
  match a with
  | AuthorDict d =>
      match dict_get d (s_ "name") with
      | Some n => n
      | None => []
      end
  | AuthorName n => n
  end.

(** The keyword score an adapter attaches to a hit. *)
Definition hit_score (c : candidate) : Z :=
  calculate_relevance_score (c_title c) (c_summary c).

(** The hit passes the relevance test. *)
Definition hit_relevant (c : candidate) : bool :=
  is_relevant_to_cervical_cancer (c_title c)
  || is_relevant_to_cervical_cancer (c_summary c).

(* ================================================================== *)
(** * Facts about strings *)

Lemma str_eqb_eq (x y : str) : str_eqb x y = true <-> x = y.
Proof.
  revert y; induction x as [|c x IH]; intros [|d y]; simpl;
    try (split; [discriminate | congruence]); try tauto.
  rewrite andb_true_iff, Ascii.eqb_eq, IH.
  split; [intros [-> ->]; reflexivity | intros H; inversion H; auto].
Qed.

Lemma str_eqb_refl (x : str) : str_eqb x x = true.
Proof. apply str_eqb_eq; reflexivity. Qed.

Lemma str_eqb_neq (x y : str) : str_eqb x y = false <-> x <> y.
Proof.
  rewrite <- str_eqb_eq. destruct (str_eqb x y); split; congruence.
Qed.

Lemma startswith_app (s p : str) :
  startswith s p = true <-> exists post, s = p ++ post.
Proof.
  revert s; induction p as [|c p IH]; intros s; simpl.
  - split; [intros _; exists s; reflexivity | reflexivity].
  - destruct s as [|d s].
    + split; [discriminate | intros [post H]; discriminate].
    + rewrite andb_true_iff, Ascii.eqb_eq, IH. split.
      * intros [-> [post ->]]. exists post; reflexivity.
      * intros [post H]. inversion H; subst. eauto.
Qed.

Lemma contains_app (s term : str) :
  contains s term = true <-> exists pre post, s = pre ++ term ++ post.
Proof.
  induction s as [|c s IH]; simpl.
  - rewrite orb_false_r, startswith_app. split.
    + intros [post H]. exists [], post. exact H.
    + intros [pre [post H]]. destruct pre as [|x pre]; [|discriminate].
      exists post. exact H.
  - rewrite orb_true_iff, startswith_app, IH. split.
    + intros [[post H] | [pre [post H]]].
      * exists [], post. exact H.
      * exists (c :: pre), post. simpl. congruence.
    + intros [pre [post H]]. destruct pre as [|x pre].
      * left. exists post. exact H.
      * right. exists pre, post. simpl in H. congruence.
Qed.

(* ================================================================== *)
(** * RelevanceClassifier *)

(** C7.  The classifier answers true exactly when some term of the fixed
    list occurs as a substring of the lower-cased input, and it answers
    false on the empty string. *)
Theorem is_relevant_iff_term_substring :
  (forall text : str,
      is_relevant_to_cervical_cancer text = true <->
      exists term pre post,
        In term relevant_terms /\ lower text = pre ++ term ++ post)
  /\ is_relevant_to_cervical_cancer [] = false.
Proof.
  split; [|reflexivity].
  intros text. unfold is_relevant_to_cervical_cancer.
  rewrite existsb_exists. split.
  - intros [term [Hin Hc]]. apply contains_app in Hc.
    destruct Hc as [pre [post H]]. exists term, pre, post. auto.
  - intros [term [pre [post [Hin H]]]]. exists term. split; [exact Hin|].
    apply contains_app. eauto.
Qed.

(* ================================================================== *)
(** * RelevanceScorer *)

Lemma findall_from_sorted (kw : str) (s : str) (prev : option ascii)
    (skip pos : nat) :
  StronglySorted lt (findall_from kw prev s skip pos)
  /\ Forall (le pos) (findall_from kw prev s skip pos).
Proof.
  revert prev skip pos; induction s as [|c s IH]; intros prev skip pos.
  - simpl. split; constructor.
  - assert (Hup : forall l, Forall (le (S pos)) l -> Forall (le pos) l).
    { intros l H. eapply Forall_impl; [|exact H]. simpl. intros; lia. }
    simpl. destruct skip as [|k].
    + destruct (match_here kw prev (c :: s)).
      * destruct (IH (Some c) (length kw - 1) (S pos)) as [H1 H2].
        split.
        -- constructor; [exact H1|].
           eapply Forall_impl; [|exact H2]. simpl. intros; lia.
        -- constructor; [lia | apply Hup; exact H2].
      * destruct (IH (Some c) 0 (S pos)) as [H1 H2]. auto.
    + destruct (IH (Some c) k (S pos)) as [H1 H2]. auto.
Qed.

Lemma app_eq_length (X : Type) (a b c d : list X) :
  a ++ b = c ++ d -> length a = length c -> a = c /\ b = d.
Proof.
  revert c; induction a as [|x a IH]; intros [|y c] H Hl; simpl in *;
    try discriminate.
  - auto.
  - inversion H; subst. destruct (IH c) as [-> ->]; auto.
Qed.

Lemma startswith_app_short (x y p : str) :
  startswith (x ++ y) p = true -> length p <= length x ->
  startswith x p = true.
Proof.
  revert x; induction p as [|c p IH]; intros [|d x] H Hl; simpl in *;
    try reflexivity; try lia.
  apply andb_true_iff in H. destruct H as [H1 H2]. rewrite H1. simpl.
  apply IH; [exact H2 | lia].
Qed.

Lemma skipn_cons_step (X : Type) (d : nat) (l : list X) (x : X)
    (tl : list X) :
  skipn d l = x :: tl ->
  firstn (S d) l = firstn d l ++ [x] /\ skipn (S d) l = tl.
Proof.
  revert l; induction d as [|d IH]; intros l H.
  - simpl in H. subst l. split; reflexivity.
  - destruct l as [|y l]; [discriminate|].
    change (skipn d l = x :: tl) in H. destruct (IH l H) as [E1 E2].
    change (firstn (S (S d)) (y :: l)) with (y :: firstn (S d) l).
    rewrite E1. split; [reflexivity | exact E2].
Qed.

Section Keyword.

Variable kw : str.
Hypothesis Hplain : plain_keyword kw = true.

Lemma kw_first : exists c rest, kw = c :: rest /\ is_word_char c = true.
Proof.
  unfold plain_keyword in Hplain.
  apply andb_true_iff in Hplain. destruct Hplain as [H _].
  apply andb_true_iff in H. destruct H as [H _].
  destruct kw as [|c rest]; [discriminate|]. eauto.
Qed.

Lemma kw_last : exists c front, kw = front ++ [c] /\ is_word_char c = true.
Proof.
  unfold plain_keyword in Hplain.
  apply andb_true_iff in Hplain. destruct Hplain as [H _].
  apply andb_true_iff in H. destruct H as [_ H].
  destruct (rev kw) as [|c rest] eqn:E; [discriminate|].
  exists c, (rev rest). split; [|exact H].
  rewrite <- (rev_involutive kw), E. reflexivity.
Qed.

Lemma kw_no_overlap (d : nat) :
  0 < d < length kw ->
  is_word (hd_error (rev (firstn d kw))) = false ->
  startswith kw (skipn d kw) = false.
Proof.
  intros Hd Hw. unfold plain_keyword in Hplain.
  apply andb_true_iff in Hplain. destruct Hplain as [_ H].
  rewrite forallb_forall in H. specialize (H d).
  rewrite Hw in H. simpl in H. apply negb_true_iff. apply H.
  apply in_seq. lia.
Qed.

(** The attempt at a position succeeds exactly when the keyword occurs
    there between two non-word characters (or ends of the text). *)
Lemma match_here_occurrence (pre s : str) :
  match_here kw (hd_error (rev pre)) s = true
  <-> wb_occurrence kw (pre ++ s) (length pre).
Proof.
  destruct kw_first as [c [rest [Ekw Hc]]].
  destruct kw_last as [c' [front [Ekw' Hc']]].
  assert (Hlast : forall prev, last_before prev kw = Some c').
  { intros prev. unfold last_before. rewrite Ekw', rev_app_distr.
    reflexivity. }
  unfold match_here, wb_occurrence. split.
  - intros H. apply andb_true_iff in H. destruct H as [H H3].
    apply andb_true_iff in H. destruct H as [H1 H2].
    apply startswith_app in H2. destruct H2 as [post ->].
    exists pre, post. split; [reflexivity|]. split; [reflexivity|].
    rewrite Hlast in H3.
    rewrite skipn_app, Nat.sub_diag, skipn_all in H3. simpl in H3.
    rewrite Ekw in H1. simpl in H1. unfold word_boundary in *.
    simpl in H1, H3. rewrite Hc in H1. rewrite Hc' in H3.
    split.
    + destruct (is_word (hd_error (rev pre))); [discriminate | reflexivity].
    + destruct (is_word (hd_error post)); [discriminate | reflexivity].
  - intros [pre' [post [E [Hl [Hw1 Hw2]]]]].
    apply app_eq_length in E; [|congruence]. destruct E as [<- ->].
    rewrite Hlast, skipn_app, Nat.sub_diag, skipn_all. simpl.
    replace (startswith (kw ++ post) kw) with true
      by (symmetry; apply startswith_app; eauto).
    unfold word_boundary. rewrite Hw1, Hw2. rewrite Ekw. simpl.
    rewrite Hc, Hc'. reflexivity.
Qed.

Lemma no_occurrence_inside (pre s : str) (k : nat) :
  in_match kw pre s (S k) -> ~ wb_occurrence kw (pre ++ s) (length pre).
Proof.
  intros [H | [Hk [pre0 [Epre Hs]]]]; [discriminate|].
  intros [pre' [post [E [Hl [Hw _]]]]].
  apply app_eq_length in E; [|congruence]. destruct E as [<- ->].
  set (d := length kw - S k) in *.
  assert (Hd : 0 < d < length kw) by (unfold d; lia).
  assert (Hfirst : firstn d kw <> []).
  { intros E. apply (f_equal (@length ascii)) in E.
    rewrite length_firstn in E. simpl in E. lia. }
  assert (Hw' : is_word (hd_error (rev (firstn d kw))) = false).
  { rewrite Epre, rev_app_distr in Hw.
    destruct (rev (firstn d kw)) as [|c r] eqn:Er; [|exact Hw].
    exfalso. apply Hfirst. rewrite <- (rev_involutive (firstn d kw)), Er.
    reflexivity. }
  pose proof (kw_no_overlap Hd Hw') as Hno.
  apply startswith_app_short in Hs.
  - congruence.
  - rewrite length_skipn. lia.
Qed.

Lemma in_match_next (pre s : str) (c : ascii) (k : nat) :
  in_match kw pre (c :: s) (S k) -> in_match kw (pre ++ [c]) s k.
Proof.
  intros [H | [Hk [pre0 [Epre Hs]]]]; [discriminate|].
  right. split; [lia|]. exists pre0.
  destruct (skipn (length kw - S k) kw) as [|x tl] eqn:Esk.
  - apply (f_equal (@length ascii)) in Esk. rewrite length_skipn in Esk.
    simpl in Esk. lia.
  - simpl in Hs. apply andb_true_iff in Hs. destruct Hs as [Hx Hs].
    apply Ascii.eqb_eq in Hx. subst x.
    destruct (skipn_cons_step _ _ Esk) as [E1 E2].
    replace (length kw - k) with (S (length kw - S k)) by lia.
    rewrite E1, E2, Epre, app_assoc. auto.
Qed.

Lemma in_match_start (pre s : str) (c : ascii) :
  startswith (c :: s) kw = true ->
  in_match kw (pre ++ [c]) s (length kw - 1).
Proof.
  intros H. unfold in_match.
  destruct kw_first as [x [rest [Ekw _]]]. rewrite Ekw in *.
  simpl in H. apply andb_true_iff in H. destruct H as [Hx Hs].
  apply Ascii.eqb_eq in Hx. subst x.
  replace (length (c :: rest) - 1) with (length rest) by (simpl length; lia).
  destruct rest as [|y rest]; [left; reflexivity|].
  right. split; [simpl length; lia|]. exists pre.
  replace (length (c :: y :: rest) - length (y :: rest)) with 1
    by (simpl length; lia).
  simpl. auto.
Qed.

(** From any point of the scan on, the matches found are the word-bounded
    occurrences at or after that point. *)
Lemma findall_from_occurrences (s pre : str) (skip : nat) :
  in_match kw pre s skip ->
  forall p,
    In p (findall_from kw (hd_error (rev pre)) s skip (length pre))
    <-> length pre <= p /\ wb_occurrence kw (pre ++ s) p.
Proof.
  revert pre skip; induction s as [|c s IH]; intros pre skip Hin p.
  - simpl. split; [tauto|]. intros [Hp [pre' [post [E [Hl _]]]]].
    rewrite app_nil_r in E. apply (f_equal (@length ascii)) in E.
    rewrite !length_app in E. destruct kw_first as [x [rest [Ekw _]]].
    rewrite Ekw in E. simpl in E. lia.
  - assert (Hc : hd_error (rev (pre ++ [c])) = Some c)
      by (rewrite rev_app_distr; reflexivity).
    assert (Hl : length (pre ++ [c]) = S (length pre))
      by (rewrite length_app; simpl; lia).
    assert (Ht : (pre ++ [c]) ++ s = pre ++ c :: s)
      by (rewrite <- app_assoc; reflexivity).
    assert (Hstep : forall k,
               in_match kw (pre ++ [c]) s k ->
               (In p (findall_from kw (Some c) s k (S (length pre)))
                <-> S (length pre) <= p
                    /\ wb_occurrence kw (pre ++ c :: s) p)).
    { intros k Hk. rewrite <- Hc, <- Hl, <- Ht. apply IH. exact Hk. }
    assert (Hsplit : forall P : Prop,
               (length pre <= p /\ P)
               <-> (p = length pre /\ P) \/ (S (length pre) <= p /\ P)).
    { intros P. split.
      - intros [Hp HP]. destruct (Nat.eq_dec p (length pre)); [left | right];
          split; auto; lia.
      - intros [[-> HP] | [Hp HP]]; split; auto; lia. }
    simpl findall_from. destruct skip as [|k].
    + destruct (match_here kw (hd_error (rev pre)) (c :: s)) eqn:Em.
      * assert (Hocc := Em). apply match_here_occurrence in Hocc.
        simpl In. rewrite Hstep, Hsplit.
        -- split; intros [H | H]; auto.
           ++ subst p. auto.
           ++ left. symmetry. tauto.
        -- apply in_match_start. unfold match_here in Em.
           apply andb_true_iff in Em. destruct Em as [Em _].
           apply andb_true_iff in Em. tauto.
      * rewrite Hstep, Hsplit by (left; reflexivity).
        split; [tauto|]. intros [[-> H] | H]; [|exact H].
        apply match_here_occurrence in H. congruence.
    + rewrite Hstep, Hsplit by (apply in_match_next; exact Hin).
      split; [tauto|]. intros [[-> H] | H]; [|exact H].
      exfalso. apply (no_occurrence_inside Hin H).
Qed.

Lemma findall_occurrences (text : str) (p : nat) :
  In p (findall kw text) <-> wb_occurrence kw text p.
Proof.
  unfold findall.
  pose proof (@findall_from_occurrences text [] 0 (or_introl eq_refl) p)
    as H.
  simpl in H. rewrite H. split; [tauto | intros Ho; split; [lia | exact Ho]].
Qed.

End Keyword.

Lemma keywords_plain :
  forallb (fun kw => plain_keyword (fst kw)) keywords = true.
Proof. vm_compute. reflexivity. Qed.

(** C6.  The score is the sum over the keyword table of weight times the
    number of matches of the keyword in the lower-cased text "title
    abstract"; the matches of a keyword are listed once each, in
    increasing order, and they are exactly the places where the keyword
    occurs with no word character right before and right after it; the
    table holds the eight weights named; and the score is not negative. *)
Theorem calculate_relevance_score_spec (title abstract : str) :
  let text := lower (title ++ s_ " " ++ abstract) in
  calculate_relevance_score title abstract
  = fold_right Z.add 0%Z
      (map (fun kw => (snd kw * Z.of_nat (length (findall (fst kw) text)))%Z)
           keywords)
  /\ (forall kw w,
         In (kw, w) keywords ->
         StronglySorted lt (findall kw text)
         /\ forall p, In p (findall kw text) <-> wb_occurrence kw text p)
  /\ (In (s_ "iarc colposcopy database", 5%Z) keywords
      /\ In (s_ "colposcopy image", 4%Z) keywords
      /\ In (s_ "cervical cancer", 3%Z) keywords
      /\ In (s_ "colposcopy", 3%Z) keywords
      /\ In (s_ "cervical", 2%Z) keywords
      /\ In (s_ "hpv", 2%Z) keywords
      /\ In (s_ "screening", 1%Z) keywords
      /\ In (s_ "dataset", 1%Z) keywords)
  /\ (0 <= calculate_relevance_score title abstract)%Z.
Proof.
  intros text.
  assert (Hsum : calculate_relevance_score title abstract
                 = fold_right Z.add 0%Z
                     (map (fun kw =>
                             (snd kw
                              * Z.of_nat (length (findall (fst kw) text)))%Z)
                          keywords)).
  { unfold calculate_relevance_score. fold text.
    unfold keywords. cbn [fold_left fold_right map fst snd]. ring. }
  split; [exact Hsum|]. split; [|split].
  - intros kw w Hin. split.
    + apply findall_from_sorted.
    + intros p. apply findall_occurrences.
      pose proof keywords_plain as H. rewrite forallb_forall in H.
      apply (H (kw, w) Hin).
  - unfold keywords. simpl. tauto.
  - rewrite Hsum. clear Hsum.
    assert (Hw : Forall (fun kw : str * Z => (0 <= snd kw)%Z) keywords)
      by (unfold keywords; repeat constructor; simpl; lia).
    induction Hw as [|kw l Hkw _ IH]; simpl; [lia|].
    apply Z.add_nonneg_nonneg; [|exact IH].
    apply Z.mul_nonneg_nonneg; lia.
Qed.

(** C10.  The title "pap smear" passes the relevance filter and is scored
    0: a retained record need not have a positive score. *)
Theorem relevant_with_zero_score :
  is_relevant_to_cervical_cancer (s_ "pap smear") = true
  /\ calculate_relevance_score (s_ "pap smear") (s_ "") = 0%Z.
Proof. split; vm_compute; reflexivity. Qed.

(* ================================================================== *)
(** * TitleSimilarity: a string against itself *)

Lemma fold_seq_invariant (S : Type) (step : S -> nat -> S)
    (P : nat -> S -> Prop) (len start : nat) (init : S) :
  P start init ->
  (forall i st, start <= i < start + len -> P i st -> P (1 + i) (step st i)) ->
  P (start + len) (fold_left step (seq start len) init).
Proof.
  revert start init; induction len as [|len IH]; intros start init H0 Hstep.
  - simpl. rewrite Nat.add_0_r. exact H0.
  - simpl. rewrite <- Nat.add_succ_comm. apply IH.
    + apply Hstep; [lia | exact H0].
    + intros i st Hi. apply Hstep. lia.
Qed.

Module SequenceMatcherFacts.
Import SequenceMatcher.

Abbreviation prev := MatcherInv.prev.
Abbreviation listed := MatcherInv.listed.

Lemma indices_from_In (c : ascii) (s : str) (pos j : nat) :
  In j (indices_from c s pos)
  <-> pos <= j < pos + length s /\ nth (j - pos) s NUL = c.
Proof.
  revert pos; induction s as [|x s IH]; intros pos; simpl.
  - split; [tauto | lia].
  - destruct (Ascii.eqb x c) eqn:E.
    + apply Ascii.eqb_eq in E. simpl. rewrite IH. split.
      * intros [<- | [H1 H2]].
        -- rewrite Nat.sub_diag. split; [lia | exact E].
        -- split; [lia|]. destruct (j - pos) as [|m] eqn:Em; [lia|].
           replace (j - S pos) with m in H2 by lia. exact H2.
      * intros [H1 H2]. destruct (j - pos) as [|m] eqn:Em.
        -- left. lia.
        -- right. split; [lia|]. replace (j - S pos) with m by lia. exact H2.
    + apply Ascii.eqb_neq in E. rewrite IH. split.
      * intros [H1 H2]. split; [lia|].
        destruct (j - pos) as [|m] eqn:Em; [lia|].
        replace (j - S pos) with m in H2 by lia. exact H2.
      * intros [H1 H2]. destruct (j - pos) as [|m] eqn:Em; [congruence|].
        split; [lia|]. replace (j - S pos) with m by lia. exact H2.
Qed.

Lemma indices_from_sorted (c : ascii) (s : str) (pos : nat) :
  StronglySorted lt (indices_from c s pos).
Proof.
  revert pos; induction s as [|x s IH]; intros pos; simpl.
  - constructor.
  - destruct (Ascii.eqb x c); [|apply IH].
    constructor; [apply IH|].
    apply Forall_forall. intros j Hj. apply indices_from_In in Hj. lia.
Qed.

Section Self.

Variable s : str.

Local Abbreviation n := (length s).
Local Abbreviation live := (MatcherInv.live s).
Local Abbreviation run := (MatcherInv.run s).
Local Abbreviation run_before := (MatcherInv.run_before s).
Local Abbreviation rows_inv := (MatcherInv.rows_inv s).

Lemma run_eq (i : nat) : run i = if live i then S (run_before i) else 0.
Proof. destruct i; reflexivity. Qed.

Lemma run_le (i : nat) : run i <= i + 1.
Proof.
  induction i as [|i IH]; simpl.
  - destruct (live 0); lia.
  - destruct (live (S i)); lia.
Qed.

Lemma b2j_In (i j : nat) :
  i < n -> In j (b2j s (nth i s NUL)) ->
  j < n /\ live i = true /\ live j = true /\ nth j s NUL = nth i s NUL.
Proof.
  unfold b2j, live. intros Hi Hj.
  destruct (popular s (nth i s NUL)) eqn:E; [destruct Hj|].
  apply indices_from_In in Hj. rewrite Nat.sub_0_r in Hj.
  destruct Hj as [Hlt Hc]. rewrite Hc, E. simpl in Hlt.
  repeat split; try reflexivity; lia.
Qed.

Lemma b2j_self (i : nat) :
  i < n -> live i = true -> In i (b2j s (nth i s NUL)).
Proof.
  unfold b2j, live. intros Hi Hl. apply negb_true_iff in Hl. rewrite Hl.
  apply indices_from_In. rewrite Nat.sub_0_r.
  simpl. split; [lia | reflexivity].
Qed.

Lemma b2j_dead (i : nat) : live i = false -> b2j s (nth i s NUL) = [].
Proof.
  unfold b2j, live. intros Hl. apply negb_false_iff in Hl. rewrite Hl.
  reflexivity.
Qed.

Lemma b2j_sorted (c : ascii) : StronglySorted lt (b2j s c).
Proof.
  unfold b2j. destruct (popular s c); [constructor|].
  apply indices_from_sorted.
Qed.

Lemma listed_In (x : nat) (js : list nat) : listed x js = true <-> In x js.
Proof.
  unfold listed. rewrite existsb_exists. split.
  - intros [y [Hy E]]. apply Nat.eqb_eq in E. subst. exact Hy.
  - intros H. exists x. split; [exact H | apply Nat.eqb_refl].
Qed.

Section Row.

Variable i : nat.
Variable old : list (nat * nat).

Hypothesis Hi : i < n.
Hypothesis Hlive : live i = true.
Hypothesis Hcol : forall j, prev old j <= run_before j.
Hypothesis Hrow : forall j, prev old j <= run_before i.
Hypothesis Hdiag : prev old i = run_before i.

(** One row of the table for [s] against itself: the best block stays on
    the diagonal, and it is at least as long as the run that ends at [i]
    once column [i] is done. *)
Lemma row_self (js : list nat) (bi bs : nat) (new : list (nat * nat)) :
  StronglySorted lt js ->
  (forall j, In j js -> j < n /\ live j = true) ->
  bi + bs <= i + 1 ->
  (forall i', i' < i -> run i' <= bs) ->
  In i js \/ run i <= bs ->
  exists bi' bs' new',
    row i old 0 n js ((bi, bi, bs), new) = ((bi', bi', bs'), new')
    /\ bi' + bs' <= i + 1
    /\ (forall i', i' < i -> run i' <= bs')
    /\ run i <= bs'
    /\ forall x, j2len_get new' x
                 = if listed x js then prev old x + 1 else j2len_get new x.
Proof.
  revert bi bs new; induction js as [|j js IH];
    intros bi bs new Hsorted Hjs Hsum Hruns Hi'.
  - exists bi, bs, new. simpl. destruct Hi' as [[] | Hi'].
    repeat split; auto.
  - simpl row. destruct (Hjs j (or_introl eq_refl)) as [Hjn Hjl].
    replace (n <=? j) with false by (symmetry; apply Nat.leb_gt; exact Hjn).
    fold (prev old j).
    inversion Hsorted as [|? ? Hsorted' Hlt]; subst.
    assert (Hjs' : forall x, In x js -> x < n /\ live x = true)
      by (intros x Hx; apply Hjs; right; exact Hx).
    assert (Hrunj : run j = S (run_before j))
      by (rewrite run_eq, Hjl; reflexivity).
    assert (Hruni : run i = S (run_before i))
      by (rewrite run_eq, Hlive; reflexivity).
    assert (Hget : forall new0 x,
               (if listed x js then prev old x + 1
                else j2len_get ((j, prev old j + 1) :: new0) x)
               = if listed x (j :: js) then prev old x + 1
                 else j2len_get new0 x).
    { intros new0 x. simpl. rewrite (Nat.eqb_sym j x).
      destruct (x =? j) eqn:E; simpl.
      - apply Nat.eqb_eq in E. subst x. destruct (listed j js); reflexivity.
      - reflexivity. }
    destruct (bs <? prev old j + 1) eqn:Eupd.
    + (* a longer block: only on the diagonal *)
      apply Nat.ltb_lt in Eupd.
      assert (j = i).
      { destruct (Nat.lt_trichotomy j i) as [Hlt' | [Heq | Hgt]];
          [|exact Heq|].
        - specialize (Hruns j Hlt'). specialize (Hcol j). lia.
        - destruct Hi' as [[Heq | Hin] | Hle]; [lia| |].
          + rewrite Forall_forall in Hlt. specialize (Hlt i Hin). lia.
          + specialize (Hrow j). lia. }
      subst j.
      destruct (IH (i + 1 - (prev old i + 1)) (prev old i + 1)
                   ((i, prev old i + 1) :: new))
        as [bi' [bs' [new' [E [H1 [H2 [H3 H4]]]]]]]; auto.
      * pose proof (run_le i). lia.
      * intros i' Hi''. specialize (Hruns i' Hi''). lia.
      * right. lia.
      * exists bi', bs', new'. rewrite E. repeat split; auto.
        intros x. rewrite H4. apply Hget.
    + apply Nat.ltb_ge in Eupd.
      destruct (IH bi bs ((j, prev old j + 1) :: new))
        as [bi' [bs' [new' [E [H1 [H2 [H3 H4]]]]]]]; auto.
      * destruct Hi' as [[Heq | Hin] | Hle]; auto.
        subst j. right. lia.
      * exists bi', bs', new'. rewrite E. repeat split; auto.
        intros x. rewrite H4. apply Hget.
Qed.

End Row.

Lemma rows_inv_step (i : nat) (st : Match * list (nat * nat)) :
  i < n -> rows_inv i st ->
  rows_inv (1 + i)
           (row i (snd st) 0 n (b2j s (nth i s NUL)) (fst st, [])).
Proof.
  intros Hi [bi [bs [E [Hsum [Hruns [Hcol [Hrow Hdiag]]]]]]].
  rewrite E. destruct (live i) eqn:Hlive.
  - destruct (@row_self i (snd st) Hi Hlive Hcol Hrow Hdiag
                        (b2j s (nth i s NUL)) bi bs [])
      as [bi' [bs' [new' [Er [H1 [H2 [H3 H4]]]]]]].
    + apply b2j_sorted.
    + intros j Hj. destruct (@b2j_In i j Hi Hj) as [? [_ [? _]]]. auto.
    + lia.
    + exact Hruns.
    + left. apply b2j_self; assumption.
    + unfold Match in *. rewrite Er. exists bi', bs'. simpl fst; simpl snd.
      assert (Hnew : forall x, j2len_get new' x <= S (prev (snd st) x)
                               /\ j2len_get new' x <= run x).
      { intros x. rewrite H4.
        destruct (listed x (b2j s (nth i s NUL))) eqn:Ex; simpl; [|lia].
        apply listed_In in Ex. destruct (@b2j_In i x Hi Ex) as [_ [_ [Hx _]]].
        rewrite run_eq, Hx. specialize (Hcol x). lia. }
      assert (Hruni : run i = S (run_before i))
        by (rewrite run_eq, Hlive; reflexivity).
      repeat split.
      * lia.
      * intros i' Hi'. destruct (Nat.eq_dec i' i) as [-> | Hne];
          [exact H3 | apply H2; lia].
      * intros [|j]; simpl; [lia | apply Hnew].
      * intros [|j]; simpl; [lia|].
        destruct (Hnew j) as [Hj _]. specialize (Hrow j). lia.
      * simpl. rewrite H4.
        replace (listed i (b2j s (nth i s NUL))) with true
          by (symmetry; apply listed_In; apply b2j_self; assumption).
        lia.
  - rewrite b2j_dead by exact Hlive. simpl row.
    assert (Hruni : run i = 0) by (rewrite run_eq, Hlive; reflexivity).
    exists bi, bs. simpl fst; simpl snd. repeat split.
    + lia.
    + intros i' Hi'. destruct (Nat.eq_dec i' i) as [-> | Hne];
        [lia | apply Hruns; lia].
    + intros [|j]; simpl; lia.
    + intros [|j]; simpl; lia.
    + simpl. lia.
Qed.

Lemma rows_self :
  exists bi bs, fst (rows s s 0 n 0 n) = (bi, bi, bs) /\ bi + bs <= n.
Proof.
  unfold rows. rewrite Nat.sub_0_r.
  pose proof (@fold_seq_invariant _
                (fun st i => row i (snd st) 0 n (b2j s (nth i s NUL))
                                 (fst st, []))
                rows_inv n 0 ((0, 0, 0), [])) as H.
  destruct H as [bi [bs [E [Hsum _]]]].
  - exists 0, 0. simpl. repeat split; try lia; intros [|j]; simpl; lia.
  - intros i st Hi. apply rows_inv_step. lia.
  - exists bi, bs. split; [exact E | exact Hsum].
Qed.

Lemma extend_back_self (m k : nat) : extend_back s s 0 0 m m k = (0, 0, k + m).
Proof.
  revert k; induction m as [|m IH]; intros k; simpl.
  - rewrite Nat.add_0_r. reflexivity.
  - rewrite Ascii.eqb_refl. simpl. rewrite IH. f_equal. lia.
Qed.

Lemma extend_fwd_self (turns k : nat) :
  k + turns = n -> extend_fwd s s turns n n 0 0 k = n.
Proof.
  revert k; induction turns as [|t IH]; intros k Hk; simpl.
  - lia.
  - replace (k <? n) with true by (symmetry; apply Nat.ltb_lt; lia).
    rewrite Ascii.eqb_refl. simpl. apply IH. lia.
Qed.

Lemma find_longest_match_self : find_longest_match s s 0 n 0 n = (0, 0, n).
Proof.
  unfold find_longest_match.
  destruct rows_self as [bi [bs [E Hsum]]]. rewrite E.
  rewrite extend_back_self. simpl.
  rewrite extend_fwd_self by lia. reflexivity.
Qed.

Lemma blocks_self :
  blocks s s n 0 n 0 n = if n =? 0 then [] else [(0, 0, n)].
Proof.
  generalize find_longest_match_self.
  destruct (length s) as [|m]; intros F; [reflexivity|].
  simpl blocks. rewrite F. cbv iota beta.
  change (S m =? 0) with false. change (0 <? 0) with false.
  rewrite Nat.add_0_l, Nat.ltb_irrefl. reflexivity.
Qed.

Lemma matches_self : matches s s = n.
Proof.
  unfold matches, get_matching_blocks. rewrite blocks_self.
  destruct (length s) as [|m]; [reflexivity|].
  simpl. lia.
Qed.

Lemma ratio_self : (ratio s s == 1)%Q.
Proof.
  unfold ratio. rewrite matches_self.
  destruct (n + n =? 0) eqn:E; [reflexivity|].
  apply Nat.eqb_neq in E. unfold Qeq. simpl Qnum. simpl Qden.
  rewrite Z.mul_1_r, Z.mul_1_l.
  rewrite <- positive_nat_Z, Nat2Pos.id by exact E.
  f_equal. lia.
Qed.

End Self.
End SequenceMatcherFacts.

(* ================================================================== *)
(** * TitleSimilarity: blocks stay in range *)

Module SequenceMatcherBounds.
Import SequenceMatcher SequenceMatcherFacts.

Section Bounds.

Variables a b : str.
Variables alo ahi blo bhi : nat.

Local Abbreviation in_range_block :=
  (MatcherInv.in_range_block alo blo bhi).
Local Abbreviation in_range_len := (MatcherInv.in_range_len alo blo bhi).

Lemma row_bounds (i : nat) (old : list (nat * nat)) (js : list nat)
    (m : Match) (new : list (nat * nat)) :
  alo <= i -> blo <= bhi ->
  in_range_len i old ->
  in_range_block (1 + i) m -> in_range_len (1 + i) new ->
  in_range_block (1 + i) (fst (row i old blo bhi js (m, new)))
  /\ in_range_len (1 + i) (snd (row i old blo bhi js (m, new))).
Proof.
  intros Hi Hb Hold. revert m new.
  induction js as [|j js IH]; intros [[bi bj] bs] new Hm Hnew;
    cbn [row].
  - auto.
  - destruct (j <? blo) eqn:E1; [apply IH; assumption|].
    destruct (bhi <=? j) eqn:E2; [auto|].
    apply Nat.ltb_ge in E1. apply Nat.leb_gt in E2.
    fold (prev old j).
    assert (Hk : prev old j <= i - alo /\ prev old j <= j - blo).
    { destruct j as [|j']; cbn [prev]; [lia|].
      destruct (Hold j') as [H1 [H2 _]]. lia. }
    assert (Hnew' : in_range_len (1 + i) ((j, prev old j + 1) :: new)).
    { intros x. cbn [j2len_get]. destruct (j =? x) eqn:Ex.
      - apply Nat.eqb_eq in Ex. subst x. lia.
      - apply Hnew. }
    destruct (bs <? prev old j + 1); apply IH; try assumption.
    unfold MatcherInv.in_range_block in *. lia.
Qed.

Lemma rows_bounds :
  alo <= ahi -> blo <= bhi ->
  in_range_block ahi (fst (rows a b alo ahi blo bhi)).
Proof.
  intros Ha Hb. unfold rows.
  pose proof (@fold_seq_invariant _
                (fun st i => row i (snd st) blo bhi (b2j b (nth i a NUL))
                                 (fst st, []))
                (fun i st => in_range_block i (fst st)
                             /\ in_range_len i (snd st))
                (ahi - alo) alo ((alo, blo, 0), [])) as H.
  replace (alo + (ahi - alo)) with ahi in H by lia.
  apply H.
  - split; [cbn; lia | intros x; cbn [snd j2len_get]; lia].
  - intros i [m old] Hi [Hm Hold]. cbn [fst snd] in *.
    apply row_bounds; try assumption; try lia.
    + destruct m as [[bi bj] bs]. unfold MatcherInv.in_range_block in *. lia.
    + intros x. cbn [j2len_get]. lia.
Qed.

Lemma extend_back_bounds (bi bj bs : nat) :
  alo <= bi -> blo <= bj ->
  let '(i, j, k) := extend_back a b alo blo bi bj bs in
  alo <= i /\ blo <= j /\ i + k = bi + bs /\ j + k = bj + bs.
Proof.
  revert bj bs; induction bi as [|bi IH]; intros bj bs Hi Hj; simpl.
  - lia.
  - destruct bj as [|bj]; [lia|].
    destruct ((alo <? S bi) && (blo <? S bj)
              && Ascii.eqb (nth bi a NUL) (nth bj b NUL)) eqn:E; [|lia].
    apply andb_true_iff in E. destruct E as [E _].
    apply andb_true_iff in E. destruct E as [E1 E2].
    apply Nat.ltb_lt in E1, E2.
    specialize (IH bj (bs + 1)).
    destruct (extend_back a b alo blo bi bj (bs + 1)) as [[i j] k].
    lia.
Qed.

Lemma extend_fwd_bounds (turns bi bj bs : nat) :
  bi + bs <= ahi -> bj + bs <= bhi ->
  let k := extend_fwd a b turns ahi bhi bi bj bs in
  bs <= k /\ bi + k <= ahi /\ bj + k <= bhi.
Proof.
  revert bs; induction turns as [|t IH]; intros bs Hi Hj; simpl.
  - lia.
  - destruct ((bi + bs <? ahi) && (bj + bs <? bhi)
              && Ascii.eqb (nth (bi + bs) a NUL) (nth (bj + bs) b NUL))
      eqn:E; [|lia].
    apply andb_true_iff in E. destruct E as [E _].
    apply andb_true_iff in E. destruct E as [E1 E2].
    apply Nat.ltb_lt in E1, E2.
    specialize (IH (bs + 1)). cbv zeta in IH. lia.
Qed.

(** The block [find_longest_match] returns lies in the ranges it was
    given. *)
Lemma find_longest_match_bounds :
  alo <= ahi -> blo <= bhi ->
  in_range_block ahi (find_longest_match a b alo ahi blo bhi).
Proof.
  intros Ha Hb. unfold find_longest_match.
  pose proof (rows_bounds Ha Hb) as H.
  destruct (fst (rows a b alo ahi blo bhi)) as [[bi bj] bs].
  simpl in H.
  pose proof (@extend_back_bounds bi bj bs) as H'.
  destruct (extend_back a b alo blo bi bj bs) as [[i j] k].
  pose proof (@extend_fwd_bounds (ahi - (i + k)) i j k) as H''.
  cbv zeta in H''. simpl. lia.
Qed.

End Bounds.

(** [blocks] never runs out of calls: any allowance of at least
    [ahi - alo] gives the same blocks. *)
Lemma blocks_fuel (a b : str) (f1 f2 alo ahi blo bhi : nat) :
  alo <= ahi -> blo <= bhi ->
  ahi - alo <= f1 -> ahi - alo <= f2 ->
  blocks a b f1 alo ahi blo bhi = blocks a b f2 alo ahi blo bhi.
Proof.
  revert f2 alo ahi blo bhi; induction f1 as [|f1 IH];
    intros f2 alo ahi blo bhi Ha Hb H1 H2;
    pose proof (find_longest_match_bounds a b Ha Hb) as Hm.
  - destruct f2 as [|f2]; [reflexivity|]. simpl.
    destruct (find_longest_match a b alo ahi blo bhi) as [[i j] k].
    simpl in Hm. replace (k =? 0) with true; [reflexivity|].
    symmetry. apply Nat.eqb_eq. lia.
  - destruct f2 as [|f2]; simpl;
      destruct (find_longest_match a b alo ahi blo bhi) as [[i j] k];
      simpl in Hm.
    + replace (k =? 0) with true; [reflexivity|].
      symmetry. apply Nat.eqb_eq. lia.
    + destruct (k =? 0) eqn:Ek; [reflexivity|]. apply Nat.eqb_neq in Ek.
      f_equal; [|f_equal].
      * destruct ((alo <? i) && (blo <? j)); [|reflexivity].
        apply IH; lia.
      * destruct ((i + k <? ahi) && (j + k <? bhi)); [|reflexivity].
        apply IH; lia.
Qed.

End SequenceMatcherBounds.

(* ================================================================== *)
(** * The second pass as a recursion on the list *)

Section FuzzyScanFacts.

Variable similar_to : paper -> paper -> bool.
Variable A : Type.
Variable emit : paper -> list paper -> A.

Lemma pending_cons_processed (j pos : nat) (P : list nat) (s : list paper) :
  j < pos -> pending (j :: P) pos s = pending P pos s.
Proof.
  revert pos; induction s as [|p s IH]; intros pos Hlt; [reflexivity|].
  simpl. replace (pos =? j) with false by (symmetry; apply Nat.eqb_neq; lia).
  simpl. rewrite IH by lia. reflexivity.
Qed.

Lemma pending_nil (pos : nat) (s : list paper) : pending [] pos s = s.
Proof.
  revert pos; induction s as [|p s IH]; intros pos; [reflexivity|].
  simpl. rewrite IH. reflexivity.
Qed.

(** The inner loop from index [length pre] on: it appends to [duplicates]
    the pending papers similar to [paper1], marks them, and leaves the
    marks below [length pre] alone. *)
Lemma scan_step_fold (paper1 : paper) (s pre : list paper)
    (dups : list paper) (P : list nat) :
  let titles := pre ++ s in
  let st := fold_left (scan_step similar_to titles paper1)
                      (seq (length pre) (length s)) (dups, P) in
  fst st = dups ++ filter (similar_to paper1) (pending P (length pre) s)
  /\ pending (snd st) (length pre) s
     = filter (fun q => negb (similar_to paper1 q))
              (pending P (length pre) s)
  /\ forall x, x < length pre -> processed x (snd st) = processed x P.
Proof.
  revert pre dups P; induction s as [|p s IH]; intros pre dups P; simpl.
  - rewrite app_nil_r. auto.
  - assert (Hl : pre ++ p :: s = (pre ++ [p]) ++ s)
      by (rewrite <- app_assoc; reflexivity).
    assert (Hn : S (length pre) = length (pre ++ [p]))
      by (rewrite length_app; simpl; lia).
    assert (Hnth : nth (length pre) (pre ++ p :: s) paper1 = p)
      by apply nth_middle.
    rewrite Hnth.
    destruct (processed (length pre) P) eqn:HP.
    + rewrite Hl, Hn.
      destruct (IH (pre ++ [p]) dups P) as [H1 [H2 H3]].
      rewrite <- Hn in *. split; [exact H1|]. split.
      * rewrite H3, HP by lia. exact H2.
      * intros x Hx. apply H3. lia.
    + destruct (similar_to paper1 p) eqn:Hs.
      * rewrite Hl, Hn.
        destruct (IH (pre ++ [p]) (dups ++ [p]) (length pre :: P))
          as [H1 [H2 H3]].
        rewrite <- Hn in *.
        rewrite pending_cons_processed in H1, H2 by lia.
        split; [|split].
        -- rewrite H1. simpl. rewrite Hs. rewrite <- app_assoc. reflexivity.
        -- rewrite H3 by lia. simpl. rewrite Nat.eqb_refl. simpl.
           rewrite Hs. simpl. exact H2.
        -- intros x Hx. rewrite H3 by lia. simpl.
           replace (x =? length pre) with false
             by (symmetry; apply Nat.eqb_neq; lia).
           reflexivity.
      * rewrite Hl, Hn.
        destruct (IH (pre ++ [p]) dups P) as [H1 [H2 H3]].
        rewrite <- Hn in *. split; [|split].
        -- rewrite H1. simpl. rewrite Hs. reflexivity.
        -- rewrite H3, HP by lia. simpl. rewrite Hs. simpl.
           rewrite H2. reflexivity.
        -- intros x Hx. apply H3. lia.
Qed.

(** The outer loop from index [length pre] on. *)
Lemma anchor_step_fold (s pre : list paper) (out : list A) (P : list nat)
    (fuel : nat) :
  length s <= fuel ->
  fst (fold_left (anchor_step similar_to emit (pre ++ s))
                 (seq (length pre) (length s)) (out, P))
  = out ++ anchor_scan similar_to emit fuel (pending P (length pre) s).
Proof.
  revert pre out P fuel; induction s as [|p s IH]; intros pre out P fuel Hf.
  - simpl. destruct fuel; simpl; rewrite app_nil_r; reflexivity.
  - assert (Hl : pre ++ p :: s = (pre ++ [p]) ++ s)
      by (rewrite <- app_assoc; reflexivity).
    assert (Hn : S (length pre) = length (pre ++ [p]))
      by (rewrite length_app; simpl; lia).
    simpl in Hf. destruct fuel as [|fuel]; [lia|].
    simpl fold_left. simpl pending.
    destruct (processed (length pre) P) eqn:HP.
    + rewrite Hl, Hn. apply IH. lia.
    + assert (Hnth : nth_error (pre ++ p :: s) (length pre) = Some p).
      { rewrite nth_error_app2 by lia. rewrite Nat.sub_diag. reflexivity. }
      rewrite Hnth.
      replace (length (pre ++ p :: s) - (length pre + 1)) with (length s)
        by (rewrite length_app; simpl; lia).
      replace (length pre + 1) with (length (pre ++ [p]))
        by (rewrite length_app; simpl; lia).
      pose proof (scan_step_fold p s (pre ++ [p]) [p] (length pre :: P))
        as Hscan.
      cbv zeta in Hscan. rewrite <- Hl in Hscan.
      destruct (fold_left _ (seq (length (pre ++ [p])) (length s)) _)
        as [dups P'] eqn:Efold.
      simpl fst in Hscan; simpl snd in Hscan.
      destruct Hscan as [H1 [H2 H3]].
      rewrite <- Hn in *.
      rewrite pending_cons_processed in H1, H2 by lia.
      rewrite Hl, Hn, (IH (pre ++ [p]) _ P' fuel).
      * rewrite <- Hn, H2, H1. simpl. rewrite <- app_assoc. reflexivity.
      * lia.
Qed.

Lemma fuzzy_scan_anchor_scan (l : list paper) :
  fuzzy_scan similar_to emit l = anchor_scan similar_to emit (length l) l.
Proof.
  unfold fuzzy_scan.
  pose proof (anchor_step_fold l [] [] [] (fuel := length l) (le_n _)) as H.
  simpl in H. rewrite H, pending_nil. reflexivity.
Qed.

End FuzzyScanFacts.

Section AnchorScanFacts.

Variable similar_to : paper -> paper -> bool.

Abbreviation clusters :=
  (anchor_scan similar_to (fun _ duplicates => duplicates)).

Lemma anchor_scan_map (A : Type) (emit : paper -> list paper -> A)
    (fuel : nat) (l : list paper) :
  anchor_scan similar_to emit fuel l
  = map (fun c => emit (anchor c) c) (clusters fuel l).
Proof.
  revert l; induction fuel as [|f IH]; intros [|p rest]; simpl;
    try reflexivity.
  rewrite IH. reflexivity.
Qed.

Lemma clusters_length (fuel : nat) (l : list paper) :
  length (clusters fuel l) <= length l.
Proof.
  revert l; induction fuel as [|f IH]; intros [|p rest]; simpl; try lia.
  specialize (IH (filter (fun q => negb (similar_to p q)) rest)).
  pose proof (filter_length_le (fun q => negb (similar_to p q)) rest). lia.
Qed.

(** A cluster is an anchor of the list followed by later papers of the
    list, each similar to the anchor. *)
Lemma clusters_shape (fuel : nat) (l : list paper) :
  Forall (fun c => exists p rest,
              c = p :: rest /\ incl c l
              /\ Forall (fun m => similar_to p m = true) rest)
         (clusters fuel l).
Proof.
  revert l; induction fuel as [|f IH]; intros [|p rest]; simpl;
    try constructor.
  - exists p, (filter (similar_to p) rest). split; [reflexivity|]. split.
    + intros x [<- | Hx]; [left; reflexivity|].
      right. apply filter_In in Hx. tauto.
    + apply Forall_forall. intros x Hx. apply filter_In in Hx. tauto.
  - eapply Forall_impl; [|apply IH].
    intros c [q [r [Hc [Hincl Hsim]]]]. exists q, r.
    split; [exact Hc|]. split; [|exact Hsim].
    intros x Hx. right. apply Hincl in Hx. apply filter_In in Hx. tauto.
Qed.

Lemma anchors_incl (fuel : nat) (l : list paper) :
  incl (map anchor (clusters fuel l)) l.
Proof.
  intros x Hx. apply in_map_iff in Hx. destruct Hx as [c [<- Hc]].
  pose proof (clusters_shape fuel l) as H.
  rewrite Forall_forall in H. destruct (H c Hc) as [p [r [-> [Hincl _]]]].
  apply Hincl. left. reflexivity.
Qed.

(** No anchor is similar to a later anchor. *)
Lemma anchors_dissimilar (fuel : nat) (l : list paper) :
  ForallOrdPairs (fun p q => similar_to p q = false)
                 (map anchor (clusters fuel l)).
Proof.
  revert l; induction fuel as [|f IH]; intros [|p rest]; simpl;
    try constructor.
  - apply Forall_forall. intros x Hx. apply anchors_incl in Hx.
    apply filter_In in Hx. destruct Hx as [_ Hx].
    apply negb_true_iff in Hx. exact Hx.
  - apply IH.
Qed.

Lemma NoDup_map_filter (B : Type) (f : paper -> B) (g : paper -> bool)
    (l : list paper) :
  NoDup (map f l) -> NoDup (map f (filter g l)).
Proof.
  induction l as [|x l IH]; simpl; intros H; [constructor|].
  inversion H as [|? ? Hnin Hnd]; subst.
  destruct (g x); simpl; [|auto].
  constructor; [|auto].
  intros Hin. apply Hnin. apply in_map_iff in Hin.
  destruct Hin as [y [Hy Hin]]. apply filter_In in Hin.
  apply in_map_iff. exists y. tauto.
Qed.

Lemma anchors_NoDup (B : Type) (f : paper -> B) (fuel : nat)
    (l : list paper) :
  NoDup (map f l) -> NoDup (map f (map anchor (clusters fuel l))).
Proof.
  revert l; induction fuel as [|f' IH]; intros [|p rest] H; simpl;
    try constructor.
  - inversion H as [|? ? Hnin Hnd]; subst.
    intros Hin. apply Hnin. apply in_map_iff in Hin.
    destruct Hin as [y [Hy Hin]]. apply anchors_incl in Hin.
    apply filter_In in Hin. apply in_map_iff. exists y. tauto.
  - apply IH. apply NoDup_map_filter. inversion H; assumption.
Qed.

(** Where no paper is similar to a later one, every paper is a cluster of
    its own. *)
Lemma clusters_singletons (fuel : nat) (l : list paper) :
  length l <= fuel ->
  ForallOrdPairs (fun p q => similar_to p q = false) l ->
  clusters fuel l = map (fun p => [p]) l.
Proof.
  revert l; induction fuel as [|f IH]; intros [|p rest] Hf H; simpl in *;
    try reflexivity; try lia.
  inversion H as [|? ? Hp Hrest]; subst.
  assert (E1 : filter (similar_to p) rest = []).
  { clear - Hp. induction Hp as [|x l Hx _ IHl]; simpl; [reflexivity|].
    rewrite Hx. exact IHl. }
  assert (E2 : filter (fun q => negb (similar_to p q)) rest = rest).
  { clear - Hp. induction Hp as [|x l Hx _ IHl]; simpl; [reflexivity|].
    rewrite Hx. simpl. rewrite IHl. reflexivity. }
  rewrite E1, E2, IH; [reflexivity | lia | exact Hrest].
Qed.

End AnchorScanFacts.

Lemma fuzzy_clusters_anchor_scan (titles : list paper) :
  fuzzy_clusters titles
  = anchor_scan similar (fun _ duplicates => duplicates)
                (length titles) titles.
Proof. apply fuzzy_scan_anchor_scan. Qed.

Lemma fuzzy_pass_clusters (titles : list paper) :
  fuzzy_pass titles = map cluster_result (fuzzy_clusters titles).
Proof.
  unfold fuzzy_pass. rewrite fuzzy_scan_anchor_scan, anchor_scan_map.
  rewrite fuzzy_clusters_anchor_scan. reflexivity.
Qed.

(* ================================================================== *)
(** * What a cluster returns *)

Lemma max_by_score_In (first : paper) (rest : list paper) :
  In (max_by_score first rest) (first :: rest).
Proof.
  unfold max_by_score. revert first.
  induction rest as [|x rest IH]; intros first; simpl; [auto|].
  destruct (get_score first <? get_score x)%Z.
  - destruct (IH x) as [H | H]; auto.
  - destruct (IH first) as [H | H]; auto.
Qed.

Lemma max_by_score_first (first : paper) (rest : list paper) :
  Forall (fun m => (get_score m <= get_score first)%Z) rest ->
  max_by_score first rest = first.
Proof.
  unfold max_by_score. induction 1 as [|x rest Hx _ IH]; simpl.
  - reflexivity.
  - replace (get_score first <? get_score x)%Z with false; [exact IH|].
    symmetry. apply Z.ltb_ge. exact Hx.
Qed.

(** A cluster of two papers or more returns its best paper with the
    cluster's size as count; title and score are the best paper's. *)
Lemma resolve_cluster_many (p d1 d2 : paper) (ds : list paper) :
  let c := d1 :: d2 :: ds in
  let best := max_by_score d1 (d2 :: ds) in
  same_identity (resolve_cluster p c) best
  /\ duplicate_count (resolve_cluster p c) = Some (Z.of_nat (length c)).
Proof.
  cbv zeta. unfold resolve_cluster.
  change (1 <? length (d1 :: d2 :: ds)) with true. cbv iota.
  destruct (merge_links (d1 :: d2 :: ds)); split; split; reflexivity.
Qed.

Lemma cluster_result_In (c : list paper) :
  c <> [] -> exists m, In m c /\ same_identity (cluster_result c) m.
Proof.
  destruct c as [|d1 [|d2 ds]]; intros Hne; [congruence| |].
  - exists d1. split; [left; reflexivity | split; reflexivity].
  - exists (max_by_score d1 (d2 :: ds)). split.
    + apply max_by_score_In.
    + apply (resolve_cluster_many (anchor (d1 :: d2 :: ds)) d1 d2 ds).
Qed.

(* ================================================================== *)
(** * Dicts *)

Lemma dict_get_None (V : Type) (d : dict V) (k : str) :
  dict_get d k = None <-> ~ In k (dict_keys d).
Proof.
  induction d as [|[k' v] d IH]; simpl; [tauto|].
  destruct (str_eqb k' k) eqn:E.
  - apply str_eqb_eq in E. split; [discriminate | tauto].
  - apply str_eqb_neq in E. rewrite IH. tauto.
Qed.

Lemma dict_get_Some (V : Type) (d : dict V) (k : str) (v : V) :
  dict_get d k = Some v -> In (k, v) d.
Proof.
  induction d as [|[k' v'] d IH]; simpl; [discriminate|].
  destruct (str_eqb k' k) eqn:E.
  - apply str_eqb_eq in E. intros H; inversion H; subst. auto.
  - auto.
Qed.

Lemma dict_set_new (V : Type) (d : dict V) (k : str) (v : V) :
  ~ In k (dict_keys d) -> dict_set d k v = d ++ [(k, v)].
Proof.
  induction d as [|[k' v'] d IH]; simpl; intros H; [reflexivity|].
  destruct (str_eqb k' k) eqn:E.
  - apply str_eqb_eq in E. tauto.
  - rewrite IH by tauto. reflexivity.
Qed.

Lemma dict_set_keys (V : Type) (d : dict V) (k : str) (v : V) :
  In k (dict_keys d) -> dict_keys (dict_set d k v) = dict_keys d.
Proof.
  induction d as [|[k' v'] d IH]; simpl; intros H; [tauto|].
  destruct (str_eqb k' k) eqn:E; simpl; [reflexivity|].
  apply str_eqb_neq in E. rewrite IH; [reflexivity|].
  destruct H; [congruence | assumption].
Qed.

Lemma dict_set_In (V : Type) (d : dict V) (k : str) (v : V) (kv : str * V) :
  In kv (dict_set d k v) -> kv = (k, v) \/ In kv d.
Proof.
  induction d as [|[k' v'] d IH]; simpl.
  - intros [H | []]. auto.
  - destruct (str_eqb k' k) eqn:E; simpl.
    + apply str_eqb_eq in E. subst. intros [H | H]; auto.
    + intros [H | H]; auto. destruct (IH H); auto.
Qed.

Lemma dict_set_has (V : Type) (d : dict V) (k : str) (v : V) (k' : str) :
  In k' (dict_keys d) -> In k' (dict_keys (dict_set d k v)).
Proof.
  induction d as [|[k0 v0] d IH]; simpl; [tauto|].
  destruct (str_eqb k0 k); simpl; tauto.
Qed.

Lemma dict_set_key (V : Type) (d : dict V) (k : str) (v : V) :
  In k (dict_keys (dict_set d k v)).
Proof.
  induction d as [|[k0 v0] d IH]; simpl; [auto|].
  destruct (str_eqb k0 k) eqn:E; simpl; [|auto].
  apply str_eqb_eq in E. auto.
Qed.

Lemma dict_set_length (V : Type) (d : dict V) (k : str) (v : V) :
  length (dict_set d k v) <= S (length d).
Proof.
  induction d as [|[k0 v0] d IH]; simpl; [lia|].
  destruct (str_eqb k0 k); simpl; lia.
Qed.

Lemma dict_update_has (V : Type) (other d : dict V) (k : str) :
  In k (dict_keys d) \/ In k (dict_keys other) ->
  In k (dict_keys (dict_update d other)).
Proof.
  unfold dict_update. revert d.
  induction other as [|[k0 v0] other IH]; intros d; simpl.
  - tauto.
  - intros [H | [H | H]]; apply IH.
    + left. apply dict_set_has. exact H.
    + left. subst. apply dict_set_key.
    + right. exact H.
Qed.

(* ================================================================== *)
(** * The links of a cluster *)

Lemma merge_links_fold_keys (k : str) (dups : list paper) (acc : dict str) :
  In k (dict_keys acc)
  \/ (exists d l, In d dups /\ links d = Some l /\ In k (dict_keys l)) ->
  In k (dict_keys
          (fold_left
             (fun all_links dup =>
                match links dup with
                | Some l => dict_update all_links l
                | None => all_links
                end)
             dups acc)).
Proof.
  revert acc; induction dups as [|x dups IH]; intros acc H; simpl.
  - destruct H as [H | [d [l [[] _]]]]. exact H.
  - apply IH. destruct H as [H | [d [l [[<- | Hd] [Hl Hk]]]]].
    + left. destruct (links x); [|exact H].
      apply dict_update_has. left. exact H.
    + left. rewrite Hl. apply dict_update_has. right. exact Hk.
    + right. exists d, l. auto.
Qed.

(** The second pass does attach the merged links to the winner: the record
    returned for a cluster of two papers or more has every link key of
    every paper of the cluster. *)
Lemma cluster_result_keeps_links (c : list paper) (d : paper)
    (l : dict str) (k : str) :
  2 <= length c -> In d c -> links d = Some l -> In k (dict_keys l) ->
  exists l', links (cluster_result c) = Some l' /\ In k (dict_keys l').
Proof.
  intros Hlen Hd Hl Hk.
  destruct c as [|d1 [|d2 ds]]; simpl in Hlen; try lia.
  assert (Hm : In k (dict_keys (merge_links (d1 :: d2 :: ds)))).
  { apply merge_links_fold_keys. right. exists d, l. auto. }
  unfold cluster_result, resolve_cluster.
  change (1 <? length (d1 :: d2 :: ds)) with true. cbv iota.
  destruct (merge_links (d1 :: d2 :: ds)) as [|kv m] eqn:E.
  - destruct Hm.
  - exists (kv :: m). split; [reflexivity | exact Hm].
Qed.

(* ================================================================== *)
(** * The first pass *)

Lemma fold_left_invariant (S X : Type) (step : S -> X -> S)
    (P : S -> Prop) (l : list X) (init : S) :
  P init ->
  (forall st x, In x l -> P st -> P (step st x)) ->
  P (fold_left step l init).
Proof.
  revert init; induction l as [|x l IH]; intros init H0 Hstep; simpl.
  - exact H0.
  - apply IH.
    + apply Hstep; [left; reflexivity | exact H0].
    + intros st y Hy. apply Hstep. right. exact Hy.
Qed.

Lemma NoDup_snoc (X : Type) (l : list X) (x : X) :
  NoDup l -> ~ In x l -> NoDup (l ++ [x]).
Proof.
  induction 1 as [|y l Hy Hnd IH]; simpl; intros Hx.
  - constructor; [tauto | constructor].
  - constructor.
    + intros Hin. apply in_app_or in Hin.
      destruct Hin as [Hin | [-> | []]]; tauto.
    + apply IH. tauto.
Qed.

Lemma merged_into_identity (stored p : paper) :
  title (merged_into stored p) = title stored
  /\ relevance_score (merged_into stored p) = relevance_score stored.
Proof.
  unfold merged_into. destruct (links p), (links stored); split; reflexivity.
Qed.

Lemma exact_step_cases (u : dict paper) (p : paper) :
  (dict_get u (title_key p) = None
   /\ exact_step u p = u ++ [(title_key p, p)])
  \/ (exists stored x,
         In (title_key p, stored) u
         /\ (x = p \/ x = merged_into stored p)
         /\ exact_step u p = dict_set u (title_key p) x).
Proof.
  unfold exact_step. destruct (dict_get u (title_key p)) as [stored|] eqn:E.
  - right. apply dict_get_Some in E. fold (merged_into stored p).
    destruct (get_score (merged_into stored p) <? get_score p)%Z.
    + exists stored, p. auto.
    + exists stored, (merged_into stored p). auto.
  - left. split; [reflexivity|]. apply dict_set_new.
    apply dict_get_None. exact E.
Qed.

Lemma exact_step_keyed (u : dict paper) (p : paper) :
  keyed u -> keyed (exact_step u p).
Proof.
  intros [Hnd Hk].
  destruct (exact_step_cases u p) as [[Hnone ->] | [stored [x [Hin [Hx ->]]]]].
  - split.
    + unfold dict_keys. rewrite map_app. simpl.
      apply dict_get_None in Hnone. apply NoDup_snoc; assumption.
    + intros k q Hq. apply in_app_or in Hq. destruct Hq as [Hq | [Hq | []]].
      * apply Hk. exact Hq.
      * inversion Hq; reflexivity.
  - assert (Hkey : In (title_key p) (dict_keys u)).
    { apply in_map_iff. exists (title_key p, stored). auto. }
    split.
    + rewrite dict_set_keys by exact Hkey. exact Hnd.
    + intros k q Hq. apply dict_set_In in Hq. destruct Hq as [Hq | Hq].
      * inversion Hq; subst. destruct Hx as [-> | ->]; [reflexivity|].
        unfold title_key.
        rewrite (proj1 (merged_into_identity stored p)).
        apply (Hk _ _ Hin).
      * apply Hk. exact Hq.
Qed.

Lemma exact_pass_keyed (results : list paper) :
  keyed (fold_left exact_step results []).
Proof.
  apply fold_left_invariant.
  - split; [constructor | intros k p []].
  - intros st x _. apply exact_step_keyed.
Qed.

Lemma keyed_values (u : dict paper) :
  keyed u -> map title_key (dict_values u) = dict_keys u.
Proof.
  intros [_ Hk]. unfold dict_values, dict_keys.
  induction u as [|[k p] u IH]; simpl; [reflexivity|].
  rewrite IH.
  - rewrite <- (Hk k p); [reflexivity | left; reflexivity].
  - intros k' p' H. apply Hk. right. exact H.
Qed.

(** The first pass leaves one paper per title key. *)
Lemma exact_pass_NoDup (results : list paper) :
  NoDup (map title_key (exact_pass results)).
Proof.
  unfold exact_pass. rewrite keyed_values by apply exact_pass_keyed.
  apply exact_pass_keyed.
Qed.

(** Every paper of the first pass carries the title and the score of a
    paper of the input. *)
Lemma exact_pass_identity (results : list paper) :
  Forall (fun o => exists r, In r results /\ same_identity o r)
         (exact_pass results).
Proof.
  unfold exact_pass, dict_values.
  assert (H : forall kv, In kv (fold_left exact_step results []) ->
                         exists r, In r results /\ same_identity (snd kv) r).
  { apply (fold_left_invariant exact_step
             (fun u => forall kv, In kv u ->
                exists r, In r results /\ same_identity (snd kv) r)).
    - intros kv [].
    - intros u p Hp IH kv Hkv.
      destruct (exact_step_cases u p)
        as [[_ E] | [stored [x [Hin [Hx E]]]]]; rewrite E in Hkv.
      + apply in_app_or in Hkv. destruct Hkv as [Hkv | [<- | []]].
        * apply IH. exact Hkv.
        * exists p. split; [exact Hp | split; reflexivity].
      + apply dict_set_In in Hkv. destruct Hkv as [-> | Hkv].
        * destruct Hx as [-> | ->].
          -- exists p. split; [exact Hp | split; reflexivity].
          -- destruct (IH _ Hin) as [r [Hr [Ht Hs]]]. exists r.
             split; [exact Hr|]. simpl in *.
             destruct (merged_into_identity stored p) as [E1 E2].
             split; congruence.
        * apply IH. exact Hkv. }
  apply Forall_forall. intros o Ho. apply in_map_iff in Ho.
  destruct Ho as [kv [<- Hkv]]. apply H. exact Hkv.
Qed.

Lemma exact_step_length (u : dict paper) (p : paper) :
  length (exact_step u p) <= S (length u).
Proof.
  unfold exact_step. destruct (dict_get u (title_key p)).
  - destruct (_ <? _)%Z; apply dict_set_length.
  - apply dict_set_length.
Qed.

Lemma exact_pass_length (results : list paper) :
  length (exact_pass results) <= length results.
Proof.
  unfold exact_pass, dict_values. rewrite length_map.
  assert (H : forall l u,
             length (fold_left exact_step l u) <= length u + length l).
  { induction l as [|p l IH]; intros u; simpl; [lia|].
    specialize (IH (exact_step u p)).
    pose proof (exact_step_length u p). lia. }
  apply (H results []).
Qed.

(** Papers with pairwise different title keys pass the first pass as they
    are. *)
Lemma exact_pass_distinct (l : list paper) :
  NoDup (map title_key l) -> exact_pass l = l.
Proof.
  intros Hnd. unfold exact_pass.
  assert (H : forall l u,
             NoDup (dict_keys u ++ map title_key l) ->
             fold_left exact_step l u
             = u ++ map (fun p => (title_key p, p)) l).
  { clear. induction l as [|p l IH]; intros u Hnd; simpl.
    - rewrite app_nil_r. reflexivity.
    - destruct (exact_step_cases u p)
        as [[_ E] | [stored [x [Hin _]]]].
      + rewrite E, IH.
        * rewrite <- app_assoc. reflexivity.
        * unfold dict_keys. rewrite map_app. simpl.
          rewrite <- app_assoc. exact Hnd.
      + exfalso. apply NoDup_remove_2 in Hnd. apply Hnd.
        apply in_or_app. left. apply in_map_iff.
        exists (title_key p, stored). auto. }
  rewrite (H l []) by exact Hnd. simpl. unfold dict_values.
  rewrite map_map. simpl. apply map_id.
Qed.

(* ================================================================== *)
(** * Similar titles *)

Lemma Qgtb_true (x y : Q) : Qgtb x y = true <-> (y < x)%Q.
Proof.
  unfold Qgtb. rewrite negb_true_iff. split.
  - intros H. apply Qnot_le_lt. intros Hle.
    apply Qle_bool_iff in Hle. congruence.
  - intros H. destruct (Qle_bool x y) eqn:E; [|reflexivity].
    apply Qle_bool_iff in E. exfalso. apply (Qlt_not_le _ _ H E).
Qed.

Lemma similar_same_title (p q : paper) : title p = title q -> similar p q = true.
Proof.
  intros E. unfold similar, calculate_similarity. rewrite E.
  apply Qgtb_true. rewrite SequenceMatcherFacts.ratio_self. reflexivity.
Qed.

Lemma exact_pass_same_key (p q : paper) :
  title_key p = title_key q -> length (exact_pass [p; q]) = 1.
Proof.
  intros E. unfold exact_pass. simpl.
  unfold exact_step at 1. simpl. rewrite E, str_eqb_refl.
  destruct (_ <? _)%Z; reflexivity.
Qed.

(** C8.  The similarity of a string and itself is 1, the empty string
    included.  Two papers with empty titles therefore compare as similar:
    the second pass puts them into one cluster, and the resolver returns a
    single record for the two. *)
Theorem calculate_similarity_self :
  (forall s : str, (calculate_similarity s s == 1)%Q)
  /\ (calculate_similarity [] [] == 1)%Q
  /\ (forall p q : paper,
         title p = [] -> title q = [] ->
         (calculate_similarity (title p) (title q) == 1)%Q
         /\ similar p q = true
         /\ fuzzy_clusters [p; q] = [[p; q]]
         /\ length (detect_duplicates [p; q]) = 1).
Proof.
  split; [|split].
  - intros s. apply SequenceMatcherFacts.ratio_self.
  - reflexivity.
  - intros p q Hp Hq.
    assert (Hsim : similar p q = true)
      by (apply similar_same_title; congruence).
    split; [rewrite Hp, Hq; reflexivity|]. split; [exact Hsim|]. split.
    + rewrite fuzzy_clusters_anchor_scan. simpl. rewrite Hsim. reflexivity.
    + unfold detect_duplicates.
      assert (Hlen : length (exact_pass [p; q]) = 1)
        by (apply exact_pass_same_key; unfold title_key; congruence).
      destruct (exact_pass [p; q]) as [|x [|y l]]; try discriminate.
      reflexivity.
Qed.

(** C8 at two papers without a title. *)
Lemma calculate_similarity_self_witness :
  (calculate_similarity (title no_paper) (title no_paper) == 1)%Q
  /\ similar no_paper no_paper = true
  /\ fuzzy_clusters [no_paper; no_paper] = [[no_paper; no_paper]]
  /\ length (detect_duplicates [no_paper; no_paper]) = 1.
Proof.
  apply (proj2 (proj2 calculate_similarity_self)); reflexivity.
Defined.

(* ================================================================== *)
(** * DuplicateResolver *)

Lemma detect_duplicates_clusters (results : list paper) :
  detect_duplicates results
  = map cluster_result (fuzzy_clusters (exact_pass results)).
Proof. apply fuzzy_pass_clusters. Qed.

Lemma fuzzy_clusters_shape (titles : list paper) :
  Forall (fun c => exists p rest,
              c = p :: rest /\ incl c titles
              /\ Forall (fun m => similar p m = true) rest)
         (fuzzy_clusters titles).
Proof. rewrite fuzzy_clusters_anchor_scan. apply clusters_shape. Qed.

(** C1 (the code at the failing input).  In the case-only example the
    second record scores higher and replaces the stored one after the
    stored one's links were updated: the record kept has its own link only
    and the "pdf" link of the first record is gone. *)
Theorem exact_collapse_loses_links :
  detect_duplicates [hpv_mixed; hpv_lower] = [hpv_lower]
  /\ (exists l, links hpv_mixed = Some l /\ dict_has l (s_ "pdf") = true)
  /\ (exists l, links hpv_lower = Some l /\ dict_has l (s_ "pdf") = false).
Proof.
  split; [vm_compute; reflexivity|]. split; eexists; split; reflexivity.
Qed.

(** C2 (counterexample).  In the case-only example two records collapse
    into one, and the record returned carries no duplicate count at all. *)
Lemma case_only_example_has_no_count :
  exists o,
    detect_duplicates [hpv_mixed; hpv_lower] = [o]
    /\ duplicate_count o = None
    /\ duplicate_count o <> Some 2%Z.
Proof.
  exists hpv_lower. split; [vm_compute; reflexivity|].
  split; [reflexivity | discriminate].
Qed.

(** C2 (amended).  The records returned match the clusters of the second
    pass one to one.  A cluster of one paper returns that paper as it is
    (no count is written); a cluster of two papers or more returns a record
    whose duplicate count is the number of papers in the cluster. *)
Theorem duplicate_count_is_cluster_size (results : list paper) :
  Forall2
    (fun c o =>
       match c with
       | [p] => o = p
       | _ => 2 <= length c
              /\ duplicate_count o = Some (Z.of_nat (length c))
       end)
    (fuzzy_clusters (exact_pass results))
    (detect_duplicates results).
Proof.
  rewrite detect_duplicates_clusters.
  pose proof (fuzzy_clusters_shape (exact_pass results)) as Hshape.
  induction Hshape as [|c cs Hc _ IH]; simpl; constructor; [|exact IH].
  destruct Hc as [p [rest [-> _]]].
  destruct rest as [|d2 ds]; [reflexivity|].
  split; [simpl; lia|].
  apply (resolve_cluster_many (anchor (p :: d2 :: ds)) p d2 ds).
Qed.

(** C4.  The clusters of the second pass are those of the recursion in
    which only the anchor is compared with later papers; every other member
    of a cluster is similar to the anchor.  For three papers A, B, C with A
    similar to B, B similar to C and A not similar to C, the clusters are
    {A, B} and {C}. *)
Theorem fuzzy_clusters_anchor_only :
  (forall titles,
      fuzzy_clusters titles
      = anchor_scan similar (fun _ duplicates => duplicates)
                    (length titles) titles)
  /\ (forall titles,
         Forall (fun c => Forall (fun m => similar (anchor c) m = true)
                                 (tl c))
                (fuzzy_clusters titles))
  /\ (forall A B C,
         similar A B = true -> similar B C = true -> similar A C = false ->
         fuzzy_clusters [A; B; C] = [[A; B]; [C]]
         /\ fuzzy_pass [A; B; C] = [resolve_cluster A [A; B]; C]).
Proof.
  split; [exact fuzzy_clusters_anchor_scan|]. split.
  - intros titles. eapply Forall_impl; [|apply fuzzy_clusters_shape].
    intros c [p [rest [-> [_ H]]]]. exact H.
  - intros A B C HAB HBC HAC.
    assert (E : fuzzy_clusters [A; B; C] = [[A; B]; [C]]).
    { rewrite fuzzy_clusters_anchor_scan. simpl.
      rewrite HAB, HAC. reflexivity. }
    split; [exact E|]. rewrite fuzzy_pass_clusters, E. reflexivity.
Qed.

(** C4 at the chain of three titles. *)
Lemma fuzzy_clusters_anchor_only_witness :
  fuzzy_clusters [chain_a 1; chain_b 1; chain_c 1]
  = [[chain_a 1; chain_b 1]; [chain_c 1]]
  /\ fuzzy_pass [chain_a 1; chain_b 1; chain_c 1]
     = [resolve_cluster (chain_a 1) [chain_a 1; chain_b 1]; chain_c 1].
Proof.
  apply (proj2 (proj2 fuzzy_clusters_anchor_only));
    vm_compute; reflexivity.
Defined.

Lemma same_identity_trans (a b c : paper) :
  same_identity a b -> same_identity b c -> same_identity a c.
Proof. unfold same_identity. intros [? ?] [? ?]. split; congruence. Qed.

(** C9.  The resolver returns at most as many records as it was given, and
    every record returned has the title and the relevance score of a record
    of the input. *)
Theorem detect_duplicates_from_input (results : list paper) :
  length (detect_duplicates results) <= length results
  /\ Forall (fun o => exists r, In r results
                                /\ title o = title r
                                /\ relevance_score o = relevance_score r)
            (detect_duplicates results).
Proof.
  rewrite detect_duplicates_clusters. split.
  - rewrite length_map, fuzzy_clusters_anchor_scan.
    pose proof (clusters_length similar (length (exact_pass results))
                                (exact_pass results)).
    pose proof (exact_pass_length results). lia.
  - apply Forall_forall. intros o Ho. apply in_map_iff in Ho.
    destruct Ho as [c [<- Hc]].
    pose proof (fuzzy_clusters_shape (exact_pass results)) as Hshape.
    rewrite Forall_forall in Hshape.
    destruct (Hshape c Hc) as [p [rest [Ec [Hincl _]]]].
    destruct (cluster_result_In (c := c)) as [m [Hm Hid]];
      [rewrite Ec; discriminate|].
    pose proof (exact_pass_identity results) as Hex.
    rewrite Forall_forall in Hex.
    destruct (Hex m (Hincl m Hm)) as [r [Hr Hid']].
    exists r. split; [exact Hr|].
    apply (same_identity_trans Hid Hid').
Qed.

Lemma similar_titles (p q p' q' : paper) :
  title p = title p' -> title q = title q' -> similar p q = similar p' q'.
Proof. unfold similar. intros -> ->. reflexivity. Qed.

Lemma ForallOrdPairs_Forall2 (X Y : Type) (R : X -> Y -> Prop)
    (Q : X -> X -> Prop) (Q' : Y -> Y -> Prop) (l : list X) (l' : list Y) :
  (forall x x' y y', R x x' -> R y y' -> Q' x' y' -> Q x y) ->
  Forall2 R l l' -> ForallOrdPairs Q' l' -> ForallOrdPairs Q l.
Proof.
  intros HR HF. induction HF as [|x x' l l' Hx HF IH]; intros HQ.
  - constructor.
  - inversion HQ as [|? ? Hhd Htl]; subst. constructor; [|auto].
    clear - HR Hx HF Hhd. induction HF as [|y y' l l' Hy HF IH].
    + constructor.
    + inversion Hhd; subst. constructor; eauto.
Qed.

(** Where the anchor wins, the record returned carries the anchor's
    title. *)
Lemma cluster_result_anchor (c : list paper) :
  anchor_wins c -> title (cluster_result c) = title (anchor c).
Proof.
  destruct c as [|p [|d2 ds]]; intros H; try reflexivity.
  destruct (resolve_cluster_many (anchor (p :: d2 :: ds)) p d2 ds)
    as [[Ht _] _].
  unfold cluster_result. rewrite Ht.
  rewrite max_by_score_first; [reflexivity|].
  inversion H; assumption.
Qed.

(** C3 (amended).  When in the first run no paper of a cluster scores
    higher than the cluster's anchor, a second run on the output merges
    nothing: its first pass keeps every record, every cluster of its second
    pass holds one record, and it returns its input. *)
Theorem second_run_merges_nothing (results : list paper) :
  Forall anchor_wins (fuzzy_clusters (exact_pass results)) ->
  let out := detect_duplicates results in
  exact_pass out = out
  /\ Forall (fun c => length c = 1) (fuzzy_clusters (exact_pass out))
  /\ detect_duplicates out = out.
Proof.
  intros Hwin out.
  set (cs := fuzzy_clusters (exact_pass results)) in *.
  assert (Eout : out = map cluster_result cs)
    by apply detect_duplicates_clusters.
  assert (Htitles : Forall2 (fun o a => title o = title a)
                            out (map anchor cs)).
  { rewrite Eout. clear Eout. induction Hwin as [|c l Hc _ IH]; simpl.
    - constructor.
    - constructor; [apply cluster_result_anchor; exact Hc | exact IH]. }
  assert (Hkeys : map title_key out = map title_key (map anchor cs)).
  { clear - Htitles. induction Htitles as [|o a l l' H _ IH]; simpl.
    - reflexivity.
    - unfold title_key at 1 3. rewrite H, IH. reflexivity. }
  assert (Hnd : NoDup (map title_key out)).
  { rewrite Hkeys. unfold cs. rewrite fuzzy_clusters_anchor_scan.
    apply anchors_NoDup. apply exact_pass_NoDup. }
  assert (Hdis : ForallOrdPairs (fun p q => similar p q = false) out).
  { eapply ForallOrdPairs_Forall2; [|exact Htitles|].
    - intros x x' y y' Hx Hy H. cbv beta in *.
      rewrite (similar_titles x y x' y' Hx Hy). exact H.
    - unfold cs. rewrite fuzzy_clusters_anchor_scan.
      apply anchors_dissimilar. }
  assert (E1 : exact_pass out = out) by (apply exact_pass_distinct; exact Hnd).
  assert (E2 : fuzzy_clusters out = map (fun p => [p]) out).
  { rewrite fuzzy_clusters_anchor_scan.
    apply clusters_singletons; [lia | exact Hdis]. }
  split; [exact E1|]. split.
  - rewrite E1, E2. apply Forall_forall. intros c Hc.
    apply in_map_iff in Hc. destruct Hc as [p [<- _]]. reflexivity.
  - rewrite detect_duplicates_clusters, E1, E2, map_map.
    unfold cluster_result. simpl. apply map_id.
Qed.

(** C3 (amended) at the chain of three titles, the first paper scoring
    highest. *)
Lemma second_run_merges_nothing_witness :
  let out := detect_duplicates [chain_a 5; chain_b 4; chain_c 3] in
  exact_pass out = out
  /\ Forall (fun c => length c = 1) (fuzzy_clusters (exact_pass out))
  /\ detect_duplicates out = out.
Proof.
  apply (second_run_merges_nothing [chain_a 5; chain_b 4; chain_c 3]).
  vm_compute.
  repeat (constructor; try discriminate).
Defined.

(** C3 (counterexample).  With the chain of three titles and the second
    paper scoring highest, the first run returns the second and the third
    paper; the second run puts the two into one cluster and returns a
    single record. *)
Lemma second_run_merges_chain :
  let out := detect_duplicates [chain_a 3; chain_b 5; chain_c 3] in
  length out = 2
  /\ (exists c, In c (fuzzy_clusters (exact_pass out)) /\ length c = 2)
  /\ ~ Forall (fun c => length c = 1) (fuzzy_clusters (exact_pass out))
  /\ length (detect_duplicates out) = 1.
Proof.
  cbv zeta.
  assert (E : fuzzy_clusters
                (exact_pass
                   (detect_duplicates [chain_a 3; chain_b 5; chain_c 3]))
              = [[set_duplicate_count (chain_b 5) 2; chain_c 3]])
    by (vm_compute; reflexivity).
  split; [vm_compute; reflexivity|]. split; [|split].
  - rewrite E. eexists. split; [left; reflexivity | reflexivity].
  - rewrite E. intros H. inversion H as [|? ? Hl _]; subst.
    discriminate Hl.
  - vm_compute; reflexivity.
Qed.

(* ================================================================== *)
(** * Ranking *)

Lemma insert_desc_perm (x : paper) (l : list paper) :
  Permutation (x :: l) (insert_desc x l).
Proof.
  induction l as [|y l IH]; simpl.
  - apply Permutation_refl.
  - destruct (get_score x <? get_score y)%Z.
    + eapply perm_trans; [apply perm_swap|]. apply perm_skip. exact IH.
    + apply Permutation_refl.
Qed.

Lemma insert_desc_Forall (P : paper -> Prop) (x : paper) (l : list paper) :
  P x -> Forall P l -> Forall P (insert_desc x l).
Proof.
  intros Hx Hl.
  eapply Permutation_Forall; [apply insert_desc_perm|].
  constructor; assumption.
Qed.

Lemma insert_desc_sorted (x : paper) (l : list paper) :
  StronglySorted score_ge l -> StronglySorted score_ge (insert_desc x l).
Proof.
  induction 1 as [|y l Hs IH Hy]; simpl.
  - constructor; constructor.
  - destruct (get_score x <? get_score y)%Z eqn:E.
    + apply Z.ltb_lt in E. constructor; [exact IH|].
      apply insert_desc_Forall; [unfold score_ge; lia | exact Hy].
    + apply Z.ltb_ge in E. constructor.
      * constructor; assumption.
      * constructor; [exact E|].
        eapply Forall_impl; [|exact Hy]. unfold score_ge. intros; lia.
Qed.

Lemma insert_desc_filter (v : Z) (x : paper) (l : list paper) :
  filter (has_score v) (insert_desc x l) = filter (has_score v) (x :: l).
Proof.
  induction l as [|y l IH]; [reflexivity|].
  simpl insert_desc. destruct (get_score x <? get_score y)%Z eqn:E.
  - apply Z.ltb_lt in E. simpl in *. rewrite IH. unfold has_score.
    destruct (get_score x =? v)%Z eqn:Ex; [|reflexivity].
    apply Z.eqb_eq in Ex.
    replace (get_score y =? v)%Z with false; [reflexivity|].
    symmetry. apply Z.eqb_neq. lia.
  - reflexivity.
Qed.

Lemma sort_by_score_desc_sorted (l : list paper) :
  StronglySorted score_ge (sort_by_score_desc l).
Proof.
  induction l as [|x l IH]; simpl.
  - constructor.
  - apply insert_desc_sorted. exact IH.
Qed.

Lemma sort_by_score_desc_perm (l : list paper) :
  Permutation l (sort_by_score_desc l).
Proof.
  induction l as [|x l IH]; simpl.
  - constructor.
  - eapply perm_trans; [|apply insert_desc_perm]. apply perm_skip. exact IH.
Qed.

Lemma sort_by_score_desc_stable (v : Z) (l : list paper) :
  filter (has_score v) (sort_by_score_desc l) = filter (has_score v) l.
Proof.
  induction l as [|x l IH]; [reflexivity|].
  simpl sort_by_score_desc. rewrite insert_desc_filter. simpl.
  rewrite IH. reflexivity.
Qed.

(** C5.  The output of the pipeline holds the papers of the duplicate
    resolver's output, by descending relevance score; the papers of any one
    score come in the order the resolver returned them. *)
Theorem search_all_sources_sorted_stable (all_results : list paper) :
  StronglySorted score_ge (search_all_sources all_results)
  /\ Permutation (detect_duplicates all_results)
                 (search_all_sources all_results)
  /\ forall v : Z,
       filter (has_score v) (search_all_sources all_results)
       = filter (has_score v) (detect_duplicates all_results).
Proof.
  unfold search_all_sources. split; [|split].
  - apply sort_by_score_desc_sorted.
  - apply sort_by_score_desc_perm.
  - intros v. apply sort_by_score_desc_stable.
Qed.

(* ================================================================== *)
(** * Further properties: classifier and scorer *)

Lemma lower_char_idempotent (c : ascii) :
  lower_char (lower_char c) = lower_char c.
Proof. destruct c as [[] [] [] [] [] [] [] []]; reflexivity. Qed.

Lemma lower_idempotent (s : str) : lower (lower s) = lower s.
Proof.
  unfold lower. rewrite map_map. apply map_ext. apply lower_char_idempotent.
Qed.

Lemma lower_app (s t : str) : lower (s ++ t) = lower s ++ lower t.
Proof. apply map_app. Qed.

(** X1.  The classifier does not look at case, and text around a relevant
    text cannot make it irrelevant. *)
Theorem is_relevant_case_and_context (text pre post : str) :
  is_relevant_to_cervical_cancer (lower text)
  = is_relevant_to_cervical_cancer text
  /\ (is_relevant_to_cervical_cancer text = true ->
      is_relevant_to_cervical_cancer (pre ++ text ++ post) = true).
Proof.
  unfold is_relevant_to_cervical_cancer. split.
  - rewrite lower_idempotent. reflexivity.
  - rewrite !existsb_exists. intros [term [Hin Hc]]. exists term.
    split; [exact Hin|]. apply contains_app in Hc.
    destruct Hc as [p1 [p2 E]]. apply contains_app.
    exists (lower pre ++ p1), (p2 ++ lower post).
    rewrite !lower_app, E, <- !app_assoc. reflexivity.
Qed.

Lemma is_relevant_case_and_context_witness :
  is_relevant_to_cervical_cancer (lower (s_ "HPV"))
  = is_relevant_to_cervical_cancer (s_ "HPV")
  /\ is_relevant_to_cervical_cancer
       (s_ "Role of " ++ s_ "HPV" ++ s_ " typing") = true.
Proof.
  destruct (is_relevant_case_and_context (s_ "HPV") (s_ "Role of ")
              (s_ " typing")) as [H1 H2].
  split; [exact H1 | apply H2; reflexivity].
Defined.

(** The score as a sum over the table. *)
Lemma score_as_sum (title abstract : str) :
  calculate_relevance_score title abstract
  = fold_right Z.add 0%Z
      (map (fun kw =>
              (snd kw
               * Z.of_nat
                   (length (findall (fst kw)
                              (lower (title ++ s_ " " ++ abstract)))))%Z)
           keywords).
Proof.
  unfold calculate_relevance_score, keywords.
  cbn [fold_left fold_right map fst snd]. ring.
Qed.

(** X2.  The scorer does not look at case. *)
Theorem calculate_relevance_score_ignores_case (title abstract : str) :
  calculate_relevance_score (lower title) (lower abstract)
  = calculate_relevance_score title abstract.
Proof.
  unfold calculate_relevance_score.
  rewrite !lower_app, !lower_idempotent. reflexivity.
Qed.

Lemma keywords_positive :
  Forall (fun kw : str * Z => (0 < snd kw)%Z) keywords.
Proof. unfold keywords. repeat constructor. Qed.

Lemma sum_zero_iff (X : Type) (f : X -> Z) (l : list X) :
  Forall (fun x => (0 <= f x)%Z) l ->
  (fold_right Z.add 0%Z (map f l) = 0%Z <-> Forall (fun x => f x = 0%Z) l).
Proof.
  induction 1 as [|x l Hx Hl IH]; simpl.
  - split; [constructor | reflexivity].
  - assert (Hs : (0 <= fold_right Z.add 0 (map f l))%Z).
    { clear - Hl. induction Hl; simpl; lia. }
    split.
    + intros E. constructor; [lia|]. apply IH. lia.
    + intros HF. inversion HF; subst. apply IH in H2. lia.
Qed.

(** X3.  The score is 0 exactly when no keyword of the table occurs in the
    lower-cased text between non-word characters. *)
Theorem calculate_relevance_score_zero (title abstract : str) :
  calculate_relevance_score title abstract = 0%Z
  <-> forall kw w p,
        In (kw, w) keywords ->
        ~ wb_occurrence kw (lower (title ++ s_ " " ++ abstract)) p.
Proof.
  rewrite score_as_sum.
  set (text := lower (title ++ s_ " " ++ abstract)).
  rewrite sum_zero_iff.
  - rewrite Forall_forall. split.
    + intros H kw w p Hin Hocc.
      specialize (H (kw, w) Hin). simpl in H.
      pose proof keywords_plain as Hp. rewrite forallb_forall in Hp.
      apply (proj2 (@findall_occurrences kw (Hp (kw, w) Hin) text p))
        in Hocc.
      pose proof keywords_positive as Hpos. rewrite Forall_forall in Hpos.
      specialize (Hpos (kw, w) Hin). simpl in Hpos.
      destruct (findall kw text) as [|q l]; [destruct Hocc|].
      assert (0 < Z.of_nat (length (q :: l)))%Z by (simpl length; lia).
      nia.
    + intros H [kw w] Hin. simpl.
      destruct (findall kw text) as [|p l] eqn:E; [simpl; lia|]. exfalso.
      apply (H kw w p Hin).
      pose proof keywords_plain as Hp. rewrite forallb_forall in Hp.
      apply (proj1 (@findall_occurrences kw (Hp (kw, w) Hin) text p)).
      rewrite E. left. reflexivity.
  - pose proof keywords_positive as Hpos.
    eapply Forall_impl; [|exact Hpos]. intros [kw w] Hw. simpl in *. nia.
Qed.

(* ================================================================== *)
(** * Further properties: title similarity *)

Module SequenceMatcherTotals.
Import SequenceMatcher SequenceMatcherFacts SequenceMatcherBounds.

Lemma total_size_from (l : list (nat * nat * nat)) (acc : nat) :
  fold_left (fun acc (m : nat * nat * nat) => acc + snd m) l acc
  = acc + total_size l.
Proof.
  unfold total_size, Match. revert acc; induction l as [|m l IH]; intros acc; simpl.
  - lia.
  - rewrite IH, (IH (snd m)). lia.
Qed.

Lemma total_size_app (l l' : list (nat * nat * nat)) :
  total_size (l ++ l') = total_size l + total_size l'.
Proof.
  unfold total_size at 1. rewrite fold_left_app, total_size_from.
  reflexivity.
Qed.

Lemma total_size_nil : total_size (@nil (nat * nat * nat)) = 0.
Proof. reflexivity. Qed.

Lemma total_size_cons (m : nat * nat * nat) (l : list (nat * nat * nat)) :
  total_size (m :: l) = snd m + total_size l.
Proof. unfold total_size at 1. simpl. apply total_size_from. Qed.

(** The blocks of a range fit into the range, in [a] and in [b]. *)
Lemma blocks_total (a b : str) (fuel alo ahi blo bhi : nat) :
  alo <= ahi -> blo <= bhi ->
  total_size (blocks a b fuel alo ahi blo bhi) <= ahi - alo
  /\ total_size (blocks a b fuel alo ahi blo bhi) <= bhi - blo.
Proof.
  revert alo ahi blo bhi; induction fuel as [|f IH];
    intros alo ahi blo bhi Ha Hb.
  - simpl. cbv [total_size fold_left]. lia.
  - pose proof (find_longest_match_bounds a b Ha Hb) as Hm.
    simpl blocks.
    destruct (find_longest_match a b alo ahi blo bhi) as [[i j] k].
    unfold MatcherInv.in_range_block in Hm.
    destruct (k =? 0); [cbv [total_size fold_left]; lia|].
    unfold Match in *.
    match goal with
    | |- total_size (?X ++ _ :: ?Y) <= _ /\ _ =>
        assert (Hl : total_size X <= i - alo /\ total_size X <= j - blo);
        [|assert (Hr : total_size Y <= ahi - (i + k)
                       /\ total_size Y <= bhi - (j + k));
          [|rewrite !total_size_app, !total_size_cons; cbn [snd];
            generalize dependent (total_size X);
            generalize dependent (total_size Y); intros; lia]]
    end.
    + destruct ((alo <? i) && (blo <? j)).
      * apply IH; lia.
      * cbv [total_size fold_left]; lia.
    + destruct ((i + k <? ahi) && (j + k <? bhi)).
      * apply IH; lia.
      * cbv [total_size fold_left]; lia.
Qed.

(** Collapsing adjacent blocks keeps the total size. *)
Lemma collapse_total (l : list (nat * nat * nat)) (m : nat * nat * nat)
    (acc : list (nat * nat * nat)) :
  snd (fst (fold_left collapse_step l (m, acc)))
  + total_size (snd (fold_left collapse_step l (m, acc)))
  = snd m + total_size acc + total_size l.
Proof.
  revert m acc; induction l as [|[[i2 j2] k2] l IH];
    intros [[i1 j1] k1] acc.
  - simpl. rewrite total_size_nil. lia.
  - rewrite total_size_cons. cbn [snd fold_left collapse_step].
    destruct ((i1 + k1 =? i2) && (j1 + k1 =? j2)).
    + etransitivity; [apply IH|]. simpl. lia.
    + destruct (k1 =? 0) eqn:Ek.
      * apply Nat.eqb_eq in Ek. subst k1.
        etransitivity; [apply IH|]. simpl. lia.
      * etransitivity; [apply IH|].
        rewrite total_size_app, total_size_cons, total_size_nil.
        simpl. lia.
Qed.

Lemma finish_total (st : nat * nat * nat * list (nat * nat * nat))
    (la lb : nat) :
  total_size
    (let '((i1, j1, k1), non_adjacent) := st in
     (if k1 =? 0 then non_adjacent else non_adjacent ++ [(i1, j1, k1)])
     ++ [(la, lb, 0)])
  = snd (fst st) + total_size (snd st).
Proof.
  destruct st as [[[i1 j1] k1] non_adjacent]. cbn [fst snd].
  rewrite total_size_app, total_size_cons, total_size_nil. cbn [snd].
  destruct (k1 =? 0) eqn:Ek.
  - apply Nat.eqb_eq in Ek. subst k1. lia.
  - rewrite total_size_app, total_size_cons, total_size_nil. cbn [snd]. lia.
Qed.

Lemma matches_blocks (a b : str) :
  matches a b = total_size (blocks a b (length a) 0 (length a) 0 (length b)).
Proof.
  change (matches a b) with (total_size (get_matching_blocks a b)).
  unfold get_matching_blocks.
  etransitivity; [apply finish_total|].
  etransitivity; [apply collapse_total|].
  reflexivity.
Qed.

Lemma matches_le (a b : str) :
  matches a b <= length a /\ matches a b <= length b.
Proof.
  rewrite matches_blocks.
  pose proof (@blocks_total a b (length a) 0 (length a) 0 (length b)
                (Nat.le_0_l _) (Nat.le_0_l _)).
  lia.
Qed.

Lemma ratio_range (a b : str) : (0 <= ratio a b <= 1)%Q.
Proof.
  unfold ratio. destruct (length a + length b =? 0) eqn:E.
  - split; discriminate.
  - apply Nat.eqb_neq in E. pose proof (matches_le a b) as [H1 H2].
    unfold Qle. simpl Qnum. simpl Qden.
    rewrite !Z.mul_1_r, Z.mul_1_l.
    rewrite <- positive_nat_Z, Nat2Pos.id by exact E.
    split; lia.
Qed.

(** No character of [a] occurs in [b]. *)
Section Disjoint.

Variables a b : str.
Hypothesis Hdisjoint : forall c, In c a -> ~ In c b.

Lemma b2j_disjoint (i : nat) : i < length a -> b2j b (nth i a NUL) = [].
Proof.
  intros Hi. unfold b2j. destruct (popular b (nth i a NUL)); [reflexivity|].
  destruct (indices_from (nth i a NUL) b 0) as [|j js] eqn:E; [reflexivity|].
  exfalso. assert (Hj : In j (indices_from (nth i a NUL) b 0))
    by (rewrite E; left; reflexivity).
  apply indices_from_In in Hj. destruct Hj as [Hlt Hc].
  apply (Hdisjoint _ (nth_In a NUL Hi)).
  rewrite <- Hc. apply nth_In. lia.
Qed.

Lemma rows_disjoint :
  fst (rows a b 0 (length a) 0 (length b)) = (0, 0, 0).
Proof.
  unfold rows. rewrite Nat.sub_0_r.
  apply (@fold_seq_invariant _
           (fun st i => row i (snd st) 0 (length b) (b2j b (nth i a NUL))
                            (fst st, []))
           (fun _ st => fst st = (0, 0, 0)) (length a) 0 ((0, 0, 0), [])).
  - reflexivity.
  - intros i st Hi E. rewrite b2j_disjoint by lia. simpl. exact E.
Qed.

Lemma find_longest_match_disjoint :
  find_longest_match a b 0 (length a) 0 (length b) = (0, 0, 0).
Proof.
  unfold find_longest_match. rewrite rows_disjoint. simpl extend_back.
  cbv iota beta. rewrite Nat.add_0_r, Nat.sub_0_r.
  destruct a as [|x a'] eqn:Ea; [reflexivity|].
  destruct b as [|y b'] eqn:Eb; [reflexivity|].
  simpl. destruct (Ascii.eqb x y) eqn:E; [|reflexivity].
  apply Ascii.eqb_eq in E. subst y. exfalso.
  apply (Hdisjoint x); left; reflexivity.
Qed.

Lemma matches_disjoint : matches a b = 0.
Proof.
  rewrite matches_blocks. destruct (length a) as [|n] eqn:E.
  - reflexivity.
  - simpl blocks. rewrite <- E, find_longest_match_disjoint. reflexivity.
Qed.

Lemma ratio_disjoint : length a + length b <> 0 -> (ratio a b == 0)%Q.
Proof.
  intros Hne. unfold ratio. rewrite matches_disjoint.
  apply Nat.eqb_neq in Hne. rewrite Hne. reflexivity.
Qed.

End Disjoint.

End SequenceMatcherTotals.

(** X4.  The similarity of two titles lies between 0 and 1. *)
Theorem calculate_similarity_range (title1 title2 : str) :
  (0 <= calculate_similarity title1 title2 <= 1)%Q.
Proof. apply SequenceMatcherTotals.ratio_range. Qed.

(** X5.  Titles that differ in case only have similarity 1, and papers
    with such titles count as similar. *)
Theorem calculate_similarity_case_only (p q : paper) :
  lower (title p) = lower (title q) ->
  (calculate_similarity (title p) (title q) == 1)%Q /\ similar p q = true.
Proof.
  intros E.
  assert (H : (calculate_similarity (title p) (title q) == 1)%Q).
  { unfold calculate_similarity. rewrite E.
    apply SequenceMatcherFacts.ratio_self. }
  split; [exact H|]. unfold similar. apply Qgtb_true. rewrite H. reflexivity.
Qed.

Lemma calculate_similarity_case_only_witness :
  (calculate_similarity (title hpv_mixed) (title hpv_lower) == 1)%Q
  /\ similar hpv_mixed hpv_lower = true.
Proof. apply calculate_similarity_case_only. reflexivity. Defined.

(** X6.  Two titles without a common character, case apart, have
    similarity 0, unless both are empty. *)
Theorem calculate_similarity_disjoint (title1 title2 : str) :
  (forall c, In c (lower title1) -> ~ In c (lower title2)) ->
  title1 <> [] \/ title2 <> [] ->
  (calculate_similarity title1 title2 == 0)%Q.
Proof.
  intros Hd Hne. unfold calculate_similarity.
  apply SequenceMatcherTotals.ratio_disjoint; [exact Hd|].
  unfold lower. rewrite !length_map.
  destruct title1, title2; simpl; try lia. destruct Hne; congruence.
Qed.

Lemma calculate_similarity_disjoint_witness :
  (calculate_similarity (s_ "HPV") (s_ "colon") == 0)%Q.
Proof.
  apply calculate_similarity_disjoint.
  - intros c H1 H2. simpl in H1, H2.
    repeat (destruct H1 as [<- | H1];
            [repeat (destruct H2 as [H2 | H2]; [discriminate H2|]);
             exact H2|]).
    exact H1.
  - left. discriminate.
Defined.

(* ================================================================== *)
(** * Further properties: the duplicate resolver *)

Lemma filter_split_perm (X : Type) (f : X -> bool) (l : list X) :
  Permutation (filter f l ++ filter (fun x => negb (f x)) l) l.
Proof.
  induction l as [|x l IH]; simpl; [constructor|].
  destruct (f x); simpl.
  - apply perm_skip. exact IH.
  - eapply perm_trans; [apply Permutation_sym, Permutation_middle|].
    apply perm_skip. exact IH.
Qed.

Lemma anchor_scan_partition (similar_to : paper -> paper -> bool)
    (fuel : nat) (l : list paper) :
  length l <= fuel ->
  Permutation
    (concat (anchor_scan similar_to (fun _ duplicates => duplicates) fuel l))
    l.
Proof.
  revert l; induction fuel as [|f IH]; intros [|p rest] Hf; simpl in *;
    try constructor; try lia.
  eapply perm_trans; [|apply filter_split_perm with (f := similar_to p)].
  apply Permutation_app_head. apply IH.
  pose proof (filter_length_le (fun q => negb (similar_to p q)) rest). lia.
Qed.

Lemma fuzzy_clusters_perm (titles : list paper) :
  Permutation (concat (fuzzy_clusters titles)) titles.
Proof.
  rewrite fuzzy_clusters_anchor_scan. apply anchor_scan_partition. lia.
Qed.

Lemma fuzzy_clusters_nonempty (titles : list paper) :
  Forall (fun c => c <> []) (fuzzy_clusters titles).
Proof.
  eapply Forall_impl; [|apply fuzzy_clusters_shape].
  intros c [p [rest [-> _]]]. discriminate.
Qed.

(** X7.  The clusters of the second pass split its input: every paper is
    in exactly one cluster, no cluster is empty, and the cluster sizes add
    up to the number of papers. *)
Theorem fuzzy_clusters_partition (titles : list paper) :
  Permutation (concat (fuzzy_clusters titles)) titles
  /\ Forall (fun c => c <> []) (fuzzy_clusters titles)
  /\ list_sum (map (@length paper) (fuzzy_clusters titles)) = length titles.
Proof.
  split; [apply fuzzy_clusters_perm|].
  split; [apply fuzzy_clusters_nonempty|].
  rewrite <- (Permutation_length (fuzzy_clusters_perm titles)).
  induction (fuzzy_clusters titles) as [|c cs IH]; simpl; [reflexivity|].
  rewrite length_app, IH. reflexivity.
Qed.

Lemma max_by_score_ge (first : paper) (rest : list paper) (m : paper) :
  In m (first :: rest) ->
  (get_score m <= get_score (max_by_score first rest))%Z.
Proof.
  unfold max_by_score.
  assert (Hmono : forall l b,
             (get_score b
              <= get_score
                   (fold_left
                      (fun best x =>
                         if (get_score best <? get_score x)%Z then x
                         else best) l b))%Z).
  { induction l as [|x l IH]; intros b; simpl; [lia|].
    destruct (get_score b <? get_score x)%Z eqn:E.
    - apply Z.ltb_lt in E. specialize (IH x). lia.
    - apply IH. }
  revert first; induction rest as [|x rest IH]; intros first Hin.
  - destruct Hin as [E | []]. subst m. simpl. lia.
  - simpl. destruct Hin as [E | [E | Hin]].
    + subst m. destruct (get_score first <? get_score x)%Z eqn:E.
      * apply Z.ltb_lt in E. specialize (Hmono rest x). lia.
      * apply Hmono.
    + subst m. destruct (get_score first <? get_score x)%Z eqn:E.
      * apply Hmono.
      * apply Z.ltb_ge in E. specialize (Hmono rest first). lia.
    + apply IH. right. exact Hin.
Qed.

Lemma winner_In (c : list paper) : c <> [] -> In (winner c) c.
Proof.
  destruct c as [|d ds]; [congruence|]. intros _. apply max_by_score_In.
Qed.

(** The record returned for a cluster has the title and the score of the
    cluster's best paper. *)
Lemma cluster_result_winner (c : list paper) :
  c <> [] -> same_identity (cluster_result c) (winner c).
Proof.
  destruct c as [|d1 [|d2 ds]]; intros Hne; [congruence| |].
  - split; reflexivity.
  - apply (resolve_cluster_many (anchor (d1 :: d2 :: ds)) d1 d2 ds).
Qed.

Lemma get_score_identity (o r : paper) :
  same_identity o r -> get_score o = get_score r.
Proof. intros [_ H]. unfold get_score. rewrite H. reflexivity. Qed.

Lemma title_key_identity (o r : paper) :
  same_identity o r -> title_key o = title_key r.
Proof. intros [H _]. unfold title_key. rewrite H. reflexivity. Qed.

Lemma cluster_result_ge (c : list paper) (m : paper) :
  In m c -> (get_score m <= get_score (cluster_result c))%Z.
Proof.
  intros Hm. assert (Hne : c <> []) by (intros ->; destruct Hm).
  rewrite (get_score_identity (cluster_result_winner Hne)).
  destruct c as [|d ds]; [congruence|]. apply max_by_score_ge. exact Hm.
Qed.

(** One element picked from each of several lists whose elements have
    pairwise different keys: the picks have pairwise different keys. *)
Lemma NoDup_picks (X K : Type) (key : X -> K) (pick : list X -> X)
    (cs : list (list X)) :
  Forall (fun c => In (pick c) c) cs ->
  NoDup (map key (concat cs)) ->
  NoDup (map key (map pick cs)).
Proof.
  induction 1 as [|c cs Hc Hcs IH]; simpl; intros Hnd; [constructor|].
  rewrite map_app in Hnd. constructor.
  - intros Hin. apply in_map_iff in Hin. destruct Hin as [x [Ex Hx]].
    apply in_map_iff in Hx. destruct Hx as [c' [<- Hc']].
    assert (H1 : In (key (pick c)) (map key c)) by (apply in_map; exact Hc).
    assert (H2 : In (key (pick c')) (map key (concat cs))).
    { apply in_map. apply in_concat. exists c'. split; [exact Hc'|].
      rewrite Forall_forall in Hcs. apply Hcs. exact Hc'. }
    rewrite Ex in H2. clear - Hnd H1 H2.
    induction (map key c) as [|k ks IHk]; [destruct H1|].
    simpl in Hnd. inversion Hnd; subst. destruct H1 as [-> | H1].
    + apply H3. apply in_or_app. right. exact H2.
    + apply IHk; assumption.
  - apply IH. clear - Hnd.
    induction (map key c) as [|k ks IHk]; [exact Hnd|].
    simpl in Hnd. inversion Hnd; subst. auto.
Qed.

(** X8.  No two records of the output have the same title key, so a second
    run never merges in its first pass: the first pass returns the output
    as it is. *)
Theorem detect_duplicates_distinct_titles (results : list paper) :
  NoDup (map title_key (detect_duplicates results))
  /\ exact_pass (detect_duplicates results) = detect_duplicates results.
Proof.
  assert (Hnd : NoDup (map title_key (detect_duplicates results))).
  { rewrite detect_duplicates_clusters.
    set (cs := fuzzy_clusters (exact_pass results)).
    pose proof (fuzzy_clusters_perm (exact_pass results)) as Hperm.
    pose proof (fuzzy_clusters_nonempty (exact_pass results)) as Hne.
    fold cs in Hperm, Hne.
    assert (E : map title_key (map cluster_result cs)
                = map title_key (map winner cs)).
    { clear Hperm. induction Hne as [|c l Hc _ IH]; simpl; [reflexivity|].
      rewrite IH, (title_key_identity (cluster_result_winner Hc)).
      reflexivity. }
    rewrite E. apply NoDup_picks.
    - eapply Forall_impl; [|exact Hne]. intros c. apply winner_In.
    - eapply Permutation_NoDup.
      + apply Permutation_sym. apply Permutation_map. exact Hperm.
      + apply exact_pass_NoDup. }
  split; [exact Hnd | apply exact_pass_distinct; exact Hnd].
Qed.


Lemma dict_set_entry (V : Type) (d : dict V) (k : str) (v : V) :
  In (k, v) (dict_set d k v).
Proof.
  induction d as [|[k' v'] d IH]; simpl; [auto|].
  destruct (str_eqb k' k) eqn:E; simpl; [|auto].
  apply str_eqb_eq in E. subst. auto.
Qed.

Lemma dict_set_keeps (V : Type) (d : dict V) (k k' : str) (v v' : V) :
  In (k', v') d -> k' <> k -> In (k', v') (dict_set d k v).
Proof.
  induction d as [|[k0 v0] d IH]; simpl; [tauto|].
  intros [H | H] Hne.
  - inversion H; subst. destruct (str_eqb k' k) eqn:E.
    + apply str_eqb_eq in E. congruence.
    + left. reflexivity.
  - destruct (str_eqb k0 k); right; auto.
Qed.

Lemma dict_entry_unique (V : Type) (d : dict V) (k : str) (v v' : V) :
  NoDup (dict_keys d) -> In (k, v) d -> In (k, v') d -> v = v'.
Proof.
  induction d as [|[k0 v0] d IH]; simpl; intros Hnd H1 H2; [tauto|].
  inversion Hnd as [|? ? Hnin Hnd']; subst.
  assert (Hkey : forall x, In (k0, x) d -> False).
  { intros x Hx. apply Hnin. apply in_map_iff. exists (k0, x). auto. }
  destruct H1 as [H1 | H1], H2 as [H2 | H2].
  - congruence.
  - inversion H1; subst. exfalso. eauto.
  - inversion H2; subst. exfalso. eauto.
  - eauto.
Qed.

Lemma get_score_merged_into (stored p : paper) :
  get_score (merged_into stored p) = get_score stored.
Proof.
  unfold get_score. rewrite (proj2 (merged_into_identity stored p)).
  reflexivity.
Qed.

(** What one turn of the first loop does, with the test on the scores. *)
Lemma exact_step_scores (u : dict paper) (p : paper) :
  (dict_get u (title_key p) = None
   /\ exact_step u p = u ++ [(title_key p, p)])
  \/ (exists stored,
         In (title_key p, stored) u
         /\ (((get_score stored < get_score p)%Z
              /\ exact_step u p = dict_set u (title_key p) p)
             \/ ((get_score p <= get_score stored)%Z
                 /\ exact_step u p
                    = dict_set u (title_key p) (merged_into stored p)))).
Proof.
  unfold exact_step. destruct (dict_get u (title_key p)) as [stored|] eqn:E.
  - right. apply dict_get_Some in E. exists stored. split; [exact E|].
    rewrite get_score_merged_into.
    destruct (get_score stored <? get_score p)%Z eqn:Es.
    + left. apply Z.ltb_lt in Es. auto.
    + right. apply Z.ltb_ge in Es. auto.
  - left. split; [reflexivity|]. apply dict_set_new.
    apply dict_get_None. exact E.
Qed.

Lemma exact_step_covers (u : dict paper) (p r : paper) :
  keyed u -> covered u r -> covered (exact_step u p) r.
Proof.
  intros [Hnd Hk] [k [o [Hin [Ht Hs]]]].
  destruct (exact_step_scores u p)
    as [[_ ->] | [stored [Hst [[Hlt ->] | [Hle ->]]]]].
  - exists k, o. split; [apply in_or_app; left; exact Hin | auto].
  - destruct (list_eq_dec ascii_dec k (title_key p)) as [-> | Hne].
    + rewrite (@dict_entry_unique _ u _ o stored Hnd Hin Hst) in *.
      exists (title_key p), p. split; [apply dict_set_entry|].
      split; [|lia]. rewrite <- Ht. apply (Hk _ _ Hst).
    + exists k, o. split; [apply dict_set_keeps; assumption | auto].
  - destruct (list_eq_dec ascii_dec k (title_key p)) as [-> | Hne].
    + rewrite (@dict_entry_unique _ u _ o stored Hnd Hin Hst) in *.
      exists (title_key p), (merged_into stored p).
      split; [apply dict_set_entry|].
      rewrite get_score_merged_into. split; [|exact Hs].
      rewrite <- Ht. unfold title_key.
      rewrite (proj1 (merged_into_identity stored p)). reflexivity.
    + exists k, o. split; [apply dict_set_keeps; assumption | auto].
Qed.

Lemma exact_step_covers_new (u : dict paper) (p : paper) :
  keyed u -> covered (exact_step u p) p.
Proof.
  intros [Hnd Hk].
  destruct (exact_step_scores u p)
    as [[_ ->] | [stored [Hst [[Hlt ->] | [Hle ->]]]]].
  - exists (title_key p), p.
    split; [apply in_or_app; right; left; reflexivity|].
    split; [reflexivity | lia].
  - exists (title_key p), p. split; [apply dict_set_entry|].
    split; [reflexivity | lia].
  - exists (title_key p), (merged_into stored p).
    split; [apply dict_set_entry|].
    rewrite get_score_merged_into. split; [|exact Hle].
    unfold title_key. rewrite (proj1 (merged_into_identity stored p)).
    symmetry. apply (Hk _ _ Hst).
Qed.

Lemma exact_fold_covers (l : list paper) (u : dict paper) (r : paper) :
  keyed u -> In r l \/ covered u r ->
  covered (fold_left exact_step l u) r.
Proof.
  revert u; induction l as [|p l IH]; intros u Hu H; simpl.
  - destruct H as [[] | H]. exact H.
  - apply IH; [apply exact_step_keyed; exact Hu|].
    destruct H as [[<- | H] | H].
    + right. apply exact_step_covers_new. exact Hu.
    + left. exact H.
    + right. apply exact_step_covers; assumption.
Qed.

(** X9.  The first pass keeps, for every title key of the input, exactly
    one record; that record has the title and the score of an input record
    and scores at least as high as every input record with that title
    key. *)
Theorem exact_pass_best_of_group (results : list paper) :
  NoDup (map title_key (exact_pass results))
  /\ Forall (fun o => exists r, In r results /\ same_identity o r)
            (exact_pass results)
  /\ forall r, In r results ->
       exists o, In o (exact_pass results)
                 /\ title_key o = title_key r
                 /\ (get_score r <= get_score o)%Z.
Proof.
  split; [apply exact_pass_NoDup|]. split; [apply exact_pass_identity|].
  intros r Hr.
  destruct (@exact_fold_covers results [] r) as [k [o [Hin H]]].
  - split; [constructor | intros ? ? []].
  - left. exact Hr.
  - exists o. split; [|exact H]. unfold exact_pass, dict_values.
    apply in_map_iff. exists (k, o). auto.
Qed.

(** Every input record is matched by an output record that scores at
    least as high. *)
Lemma detect_duplicates_dominates (results : list paper) (r : paper) :
  In r results ->
  exists o, In o (detect_duplicates results)
            /\ (get_score r <= get_score o)%Z.
Proof.
  intros Hr.
  destruct (@exact_fold_covers results [] r) as [k [o [Hin [_ Hs]]]].
  - split; [constructor | intros ? ? []].
  - left. exact Hr.
  - assert (Ho : In o (exact_pass results)).
    { unfold exact_pass, dict_values. apply in_map_iff. exists (k, o). auto. }
    pose proof (fuzzy_clusters_perm (exact_pass results)) as Hperm.
    apply (Permutation_in _ (Permutation_sym Hperm)) in Ho.
    apply in_concat in Ho. destruct Ho as [c [Hc Hoc]].
    exists (cluster_result c). split.
    + rewrite detect_duplicates_clusters. apply in_map. exact Hc.
    + pose proof (cluster_result_ge c o Hoc). lia.
Qed.

(** X10.  Deduplication loses no score: every input record is matched by
    an output record that scores at least as high, and every output record
    has the score of an input record; so the highest score of the output is
    the highest score of the input. *)
Theorem detect_duplicates_keeps_best (results : list paper) :
  (forall r, In r results ->
     exists o, In o (detect_duplicates results)
               /\ (get_score r <= get_score o)%Z)
  /\ (forall o, In o (detect_duplicates results) ->
        exists r, In r results /\ get_score o = get_score r).
Proof.
  split; [intros r; apply detect_duplicates_dominates|].
  intros o Ho. rewrite detect_duplicates_clusters in Ho.
  apply in_map_iff in Ho. destruct Ho as [c [<- Hc]].
  pose proof (fuzzy_clusters_perm (exact_pass results)) as Hperm.
  pose proof (fuzzy_clusters_nonempty (exact_pass results)) as Hne.
  rewrite Forall_forall in Hne. specialize (Hne c Hc).
  pose proof (winner_In Hne) as Hw.
  assert (Hin : In (winner c) (exact_pass results)).
  { apply (Permutation_in _ Hperm). apply in_concat. exists c. auto. }
  pose proof (exact_pass_identity results) as Hex.
  rewrite Forall_forall in Hex. destruct (Hex _ Hin) as [r [Hr Hid]].
  exists r. split; [exact Hr|].
  rewrite (get_score_identity (cluster_result_winner Hne)).
  apply get_score_identity. exact Hid.
Qed.

(** X11.  The ranking is empty only for an empty input, and its first
    record scores at least as high as every input record. *)
Theorem search_all_sources_top (all_results : list paper) :
  (search_all_sources all_results = [] <-> all_results = [])
  /\ forall o rest,
       search_all_sources all_results = o :: rest ->
       forall r, In r all_results -> (get_score r <= get_score o)%Z.
Proof.
  assert (Hin : forall r, In r all_results ->
                  exists o, In o (search_all_sources all_results)
                            /\ (get_score r <= get_score o)%Z).
  { intros r Hr. destruct (detect_duplicates_dominates _ _ Hr) as [o [Ho Hs]].
    exists o. split; [|exact Hs]. unfold search_all_sources.
    apply (Permutation_in _ (sort_by_score_desc_perm _)). exact Ho. }
  split.
  - split.
    + intros E. destruct all_results as [|r l]; [reflexivity|].
      destruct (Hin r (or_introl eq_refl)) as [o [Ho _]].
      rewrite E in Ho. destruct Ho.
    + intros ->. reflexivity.
  - intros o rest E r Hr. destruct (Hin r Hr) as [o' [Ho' Hs]].
    pose proof (sort_by_score_desc_sorted (detect_duplicates all_results))
      as Hsorted.
    unfold search_all_sources in E. rewrite E in Hsorted.
    unfold search_all_sources in Ho'. rewrite E in Ho'.
    inversion Hsorted as [|? ? _ Hall]; subst.
    destruct Ho' as [<- | Ho']; [exact Hs|].
    rewrite Forall_forall in Hall. specialize (Hall o' Ho').
    unfold score_ge in Hall. lia.
Qed.

Lemma search_all_sources_top_witness :
  (get_score (chain_a 2) <= get_score hpv_lower)%Z.
Proof.
  apply (proj2 (search_all_sources_top [hpv_mixed; hpv_lower; chain_a 2])
               hpv_lower [chain_a 2]).
  - vm_compute. reflexivity.
  - right. right. left. reflexivity.
Defined.


Lemma dict_get_set_same (V : Type) (d : dict V) (k : str) (v : V) :
  dict_get (dict_set d k v) k = Some v.
Proof.
  induction d as [|[k' v'] d IH]; simpl.
  - rewrite str_eqb_refl. reflexivity.
  - destruct (str_eqb k' k) eqn:E; simpl; rewrite E; [reflexivity | exact IH].
Qed.

Lemma dict_get_set_other (V : Type) (d : dict V) (k k' : str) (v : V) :
  k' <> k -> dict_get (dict_set d k v) k' = dict_get d k'.
Proof.
  intros Hne. induction d as [|[k0 v0] d IH]; simpl.
  - replace (str_eqb k k') with false; [reflexivity|].
    symmetry. apply str_eqb_neq. congruence.
  - destruct (str_eqb k0 k) eqn:E; simpl.
    + apply str_eqb_eq in E. subst k0.
      replace (str_eqb k k') with false; [reflexivity|].
      symmetry. apply str_eqb_neq. congruence.
    + rewrite IH. reflexivity.
Qed.

Lemma dict_set_keys_incl (V : Type) (d : dict V) (k : str) (v : V) (x : str) :
  In x (dict_keys (dict_set d k v)) -> x = k \/ In x (dict_keys d).
Proof.
  induction d as [|[k0 v0] d IH]; simpl.
  - intros [H | []]. auto.
  - destruct (str_eqb k0 k); simpl; intros [H | H]; auto.
    destruct (IH H); auto.
Qed.

Lemma dict_update_get_other (V : Type) (other d : dict V) (k : str) :
  ~ In k (dict_keys other) ->
  dict_get (dict_update d other) k = dict_get d k.
Proof.
  unfold dict_update. revert d.
  induction other as [|[k0 v0] other IH]; intros d Hk; simpl; [reflexivity|].
  simpl in Hk. rewrite IH by tauto.
  apply dict_get_set_other. intros E. apply Hk. left. congruence.
Qed.

Lemma dict_update_get (V : Type) (other d : dict V) (k : str) (v : V) :
  NoDup (dict_keys other) -> dict_get other k = Some v ->
  dict_get (dict_update d other) k = Some v.
Proof.
  revert d. induction other as [|[k0 v0] other IH]; intros d Hnd Hg;
    [discriminate|].
  simpl in Hnd, Hg. inversion Hnd as [|? ? Hnin Hnd']; subst.
  change (dict_update d ((k0, v0) :: other))
    with (dict_update (dict_set d k0 v0) other).
  destruct (str_eqb k0 k) eqn:E.
  - apply str_eqb_eq in E. subst k0. inversion Hg; subst.
    rewrite dict_update_get_other by exact Hnin.
    apply dict_get_set_same.
  - apply IH; assumption.
Qed.

Lemma dict_update_keys_incl (V : Type) (other d : dict V) (x : str) :
  In x (dict_keys (dict_update d other)) ->
  In x (dict_keys d) \/ In x (dict_keys other).
Proof.
  unfold dict_update. revert d.
  induction other as [|[k0 v0] other IH]; intros d; simpl; [auto|].
  intros H. destruct (IH _ H) as [H' | H']; [|auto].
  apply dict_set_keys_incl in H'. simpl in H'. destruct H'; auto.
Qed.

(** X12.  The merged links hold exactly the keys of the papers merged, and
    where several papers have a key the value of the last of them stands. *)
Theorem merge_links_last_wins (duplicates : list paper) :
  (forall k,
      In k (dict_keys (merge_links duplicates)) <->
      exists d l, In d duplicates /\ links d = Some l /\ In k (dict_keys l))
  /\ forall pre post d l k v,
       duplicates = pre ++ d :: post ->
       links d = Some l -> NoDup (dict_keys l) -> dict_get l k = Some v ->
       (forall r l', In r post -> links r = Some l' ->
                     dict_get l' k = None) ->
       dict_get (merge_links duplicates) k = Some v.
Proof.
  split.
  - intros k. split.
    + unfold merge_links.
      assert (H : forall dups acc,
                 In k (dict_keys
                         (fold_left
                            (fun all_links dup =>
                               match links dup with
                               | Some l => dict_update all_links l
                               | None => all_links
                               end) dups acc)) ->
                 In k (dict_keys acc)
                 \/ exists d l, In d dups /\ links d = Some l
                                /\ In k (dict_keys l)).
      { induction dups as [|x dups IH]; intros acc Hin; simpl in Hin.
        - left. exact Hin.
        - destruct (IH _ Hin) as [H | [d [l [Hd [Hl Hk]]]]].
          + destruct (links x) as [lx|] eqn:Ex; [|left; exact H].
            apply dict_update_keys_incl in H. destruct H as [H | H].
            * left. exact H.
            * right. exists x, lx. simpl. auto.
          + right. exists d, l. simpl. auto. }
      intros Hin. destruct (H duplicates [] Hin) as [[] | H']. exact H'.
    + intros H. apply merge_links_fold_keys. right. exact H.
  - intros pre post d l k v -> Hl Hnd Hg Hpost. unfold merge_links.
    rewrite fold_left_app. simpl. rewrite Hl.
    assert (H : forall dups acc,
               (forall r l', In r dups -> links r = Some l' ->
                             dict_get l' k = None) ->
               dict_get
                 (fold_left
                    (fun all_links dup =>
                       match links dup with
                       | Some l => dict_update all_links l
                       | None => all_links
                       end) dups acc) k
               = dict_get acc k).
    { induction dups as [|x dups IH]; intros acc Hx; simpl; [reflexivity|].
      rewrite IH by (intros r l' Hr; apply Hx; right; exact Hr).
      destruct (links x) as [lx|] eqn:Ex; [|reflexivity].
      apply dict_update_get_other. apply dict_get_None.
      apply (Hx x lx); [left; reflexivity | exact Ex]. }
    rewrite H by exact Hpost. apply dict_update_get; assumption.
Qed.

Lemma merge_links_last_wins_witness :
  dict_get (merge_links [hpv_mixed; hpv_lower]) (s_ "pdf")
  = Some (s_ "https://a.example/p.pdf").
Proof.
  apply (proj2 (merge_links_last_wins [hpv_mixed; hpv_lower])
               [] [hpv_lower] hpv_mixed
               [(s_ "pdf", s_ "https://a.example/p.pdf")]).
  - reflexivity.
  - reflexivity.
  - repeat constructor. intros [].
  - reflexivity.
  - intros r l' [<- | []] E. inversion E. reflexivity.
Defined.

(** Every turn of the first loop sets the entry of the paper's title key
    and no other. *)
Lemma exact_step_set (u : dict paper) (p : paper) :
  exists x, exact_step u p = dict_set u (title_key p) x.
Proof.
  unfold exact_step. destruct (dict_get u (title_key p)); [|eauto].
  destruct (_ <? _)%Z; eauto.
Qed.

Lemma exact_fold_keys (l : list paper) (u : dict paper) (x : str) :
  In x (dict_keys (fold_left exact_step l u)) ->
  In x (dict_keys u) \/ In x (map title_key l).
Proof.
  revert u; induction l as [|p l IH]; intros u H; simpl in *; [auto|].
  destruct (IH _ H) as [H' | H']; [|auto].
  destruct (exact_step_set u p) as [y E]. rewrite E in H'.
  apply dict_set_keys_incl in H'. destruct H'; auto.
Qed.

(** The first loop from a record [first] stored under its title key on,
    when no later record with that title key scores higher: the stored
    record stays and collects the link keys; [K] are the keys it has. *)
Lemma leader_fold (first : paper) (post : list paper) (u : dict paper)
    (K : str -> Prop) :
  (forall r, In r post -> title_key r = title_key first ->
             (get_score r <= get_score first)%Z) ->
  (exists stored ls,
      dict_get u (title_key first) = Some stored
      /\ same_identity stored first /\ links stored = Some ls
      /\ forall x, K x -> In x (dict_keys ls)) ->
  exists stored ls,
    dict_get (fold_left exact_step post u) (title_key first) = Some stored
    /\ same_identity stored first /\ links stored = Some ls
    /\ (forall x, K x -> In x (dict_keys ls))
    /\ forall r l x,
         In r post -> title_key r = title_key first ->
         links r = Some l -> In x (dict_keys l) -> In x (dict_keys ls).
Proof.
  revert u K; induction post as [|p post IH];
    intros u K Hscore [stored [ls [Hg [Hid [Hl HK]]]]].
  - exists stored, ls. simpl. split; [exact Hg|]. split; [exact Hid|].
    split; [exact Hl|]. split; [exact HK|]. intros r l x [].
  - simpl fold_left.
    assert (Hscore' : forall r, In r post ->
                        title_key r = title_key first ->
                        (get_score r <= get_score first)%Z)
      by (intros r Hr; apply Hscore; right; exact Hr).
    destruct (list_eq_dec ascii_dec (title_key p) (title_key first))
      as [Ek | Hne].
    + set (K' := fun x => K x
                          \/ exists l, links p = Some l
                                       /\ In x (dict_keys l)).
      destruct (IH (exact_step u p) K' Hscore')
        as [st' [ls' [Hg' [Hid' [Hl' [HK' Hrest]]]]]].
      * unfold exact_step. rewrite Ek, Hg. fold (merged_into stored p).
        rewrite get_score_merged_into.
        replace (get_score stored <? get_score p)%Z with false.
        2:{ symmetry. apply Z.ltb_ge.
            rewrite (get_score_identity Hid).
            apply Hscore; [left; reflexivity | exact Ek]. }
        rewrite dict_get_set_same.
        destruct (merged_into_identity stored p) as [E1 E2].
        unfold merged_into in *. destruct (links p) as [lp|] eqn:Ep.
        -- rewrite Hl in *. exists (set_links stored (dict_update ls lp)).
           exists (dict_update ls lp).
           split; [reflexivity|]. split; [exact Hid|].
           split; [reflexivity|].
           intros x [Hx | [l [El Hx]]]; apply dict_update_has.
           ++ left. apply HK. exact Hx.
           ++ right. inversion El; subst. exact Hx.
        -- exists stored, ls. split; [reflexivity|]. split; [exact Hid|].
           split; [exact Hl|].
           intros x [Hx | [l [El Hx]]]; [apply HK; exact Hx | discriminate].
      * exists st', ls'. split; [exact Hg'|]. split; [exact Hid'|].
        split; [exact Hl'|]. split.
        -- intros x Hx. apply HK'. left. exact Hx.
        -- intros r l x [<- | Hr] Hk Hlr Hx.
           ++ apply HK'. right. exists l. auto.
           ++ apply (Hrest r l x Hr Hk Hlr Hx).
    + destruct (IH (exact_step u p) K Hscore')
        as [st' [ls' [Hg' [Hid' [Hl' [HK' Hrest]]]]]].
      * destruct (exact_step_set u p) as [y E]. rewrite E.
        rewrite dict_get_set_other by congruence.
        exists stored, ls. auto.
      * exists st', ls'. split; [exact Hg'|]. split; [exact Hid'|].
        split; [exact Hl'|]. split; [exact HK'|].
        intros r l x [<- | Hr] Hk Hlr Hx; [congruence|].
        apply (Hrest r l x Hr Hk Hlr Hx).
Qed.

(** X13.  When the first record of a title key has links and no later
    record of that key scores higher, the first pass keeps it with the
    link keys of all records of the key: its own and those of every later
    record with that title key. *)
Theorem exact_pass_leader_keeps_links (pre post : list paper)
    (first : paper) (l0 : dict str) :
  (forall r, In r pre -> title_key r <> title_key first) ->
  links first = Some l0 ->
  (forall r, In r post -> title_key r = title_key first ->
             (get_score r <= get_score first)%Z) ->
  exists o lo,
    In o (exact_pass (pre ++ first :: post))
    /\ same_identity o first /\ links o = Some lo
    /\ (forall x, In x (dict_keys l0) -> In x (dict_keys lo))
    /\ forall r l x,
         In r post -> title_key r = title_key first ->
         links r = Some l -> In x (dict_keys l) -> In x (dict_keys lo).
Proof.
  intros Hpre Hl Hpost. unfold exact_pass.
  rewrite fold_left_app. simpl fold_left.
  set (u0 := fold_left exact_step pre []).
  assert (Hnone : dict_get u0 (title_key first) = None).
  { apply dict_get_None. intros Hin. apply exact_fold_keys in Hin.
    destruct Hin as [[] | Hin]. apply in_map_iff in Hin.
    destruct Hin as [r [Er Hr]]. apply (Hpre r Hr Er). }
  destruct (@leader_fold first post (exact_step u0 first)
              (fun x => In x (dict_keys l0)) Hpost)
    as [o [lo [Hg [Hid [Hlo [HK Hrest]]]]]].
  - unfold exact_step. rewrite Hnone, dict_get_set_same.
    exists first, l0. split; [reflexivity|].
    split; [split; reflexivity|]. auto.
  - exists o, lo. split.
    + unfold dict_values. apply in_map_iff.
      exists (title_key first, o). split; [reflexivity|].
      apply dict_get_Some. exact Hg.
    + auto.
Qed.

Lemma exact_pass_leader_keeps_links_witness :
  exists o lo,
    In o (exact_pass ([] ++ hpv_lower :: [hpv_mixed]))
    /\ same_identity o hpv_lower /\ links o = Some lo
    /\ (forall x,
           In x (dict_keys [(s_ "pubmed",
                             s_ "https://pubmed.ncbi.nlm.nih.gov/1/")]) ->
           In x (dict_keys lo))
    /\ forall r l x,
         In r [hpv_mixed] -> title_key r = title_key hpv_lower ->
         links r = Some l -> In x (dict_keys l) -> In x (dict_keys lo).
Proof.
  apply exact_pass_leader_keeps_links.
  - intros r [].
  - reflexivity.
  - intros r [<- | []] _. vm_compute. discriminate.
Defined.


Lemma exact_pass_Forall (P : paper -> Prop) (results : list paper) :
  (forall stored p, P stored -> P (merged_into stored p)) ->
  Forall P results -> Forall P (exact_pass results).
Proof.
  intros Hmerge HP. unfold exact_pass, dict_values.
  rewrite Forall_forall in HP.
  assert (H : forall kv, In kv (fold_left exact_step results []) ->
                         P (snd kv)).
  { apply (fold_left_invariant exact_step
             (fun u => forall kv, In kv u -> P (snd kv))).
    - intros kv [].
    - intros u p Hp IH kv Hkv.
      destruct (exact_step_cases u p)
        as [[_ E] | [stored [x [Hin [Hx E]]]]]; rewrite E in Hkv.
      + apply in_app_or in Hkv. destruct Hkv as [Hkv | [<- | []]].
        * apply IH. exact Hkv.
        * apply HP. exact Hp.
      + apply dict_set_In in Hkv. destruct Hkv as [-> | Hkv].
        * destruct Hx as [-> | ->]; [apply HP; exact Hp|].
          apply Hmerge. apply (IH _ Hin).
        * apply IH. exact Hkv. }
  apply Forall_forall. intros o Ho. apply in_map_iff in Ho.
  destruct Ho as [kv [<- Hkv]]. apply H. exact Hkv.
Qed.

Lemma fuzzy_clusters_Forall (P : paper -> Prop) (titles : list paper) :
  Forall P titles -> Forall (Forall P) (fuzzy_clusters titles).
Proof.
  intros HP. rewrite Forall_forall in HP.
  eapply Forall_impl; [|apply fuzzy_clusters_shape].
  intros c [p [rest [_ [Hincl _]]]]. apply Forall_forall.
  intros x Hx. apply HP. apply Hincl. exact Hx.
Qed.

(** X14.  For input records without a duplicate count, [main] prints the
    note on combined entries exactly for the records that come from a
    cluster of two papers or more. *)
Theorem duplicate_note_iff_cluster (results : list paper) :
  Forall (fun p => duplicate_count p = None) results ->
  Forall2 (fun c o => shows_duplicate_note o = (1 <? length c))
          (fuzzy_clusters (exact_pass results))
          (detect_duplicates results).
Proof.
  intros Hnone. rewrite detect_duplicates_clusters.
  assert (Hcs : Forall (Forall (fun p => duplicate_count p = None))
                       (fuzzy_clusters (exact_pass results))).
  { apply fuzzy_clusters_Forall. apply exact_pass_Forall; [|exact Hnone].
    intros stored p H. unfold merged_into.
    destruct (links p), (links stored); exact H. }
  induction Hcs as [|c cs Hc _ IH]; simpl; constructor; [|exact IH].
  destruct c as [|d1 [|d2 ds]].
  - reflexivity.
  - inversion Hc as [|? ? Hd1 _]; subst.
    change (cluster_result [d1]) with d1.
    unfold shows_duplicate_note. rewrite Hd1. reflexivity.
  - unfold shows_duplicate_note, cluster_result.
    rewrite (proj2 (resolve_cluster_many (anchor (d1 :: d2 :: ds)) d1 d2 ds)).
    simpl length. apply Z.ltb_lt. lia.
Qed.

Lemma duplicate_note_iff_cluster_witness :
  Forall2 (fun c o => shows_duplicate_note o = (1 <? length c))
          (fuzzy_clusters (exact_pass [chain_a 5; chain_b 4; chain_c 3]))
          (detect_duplicates [chain_a 5; chain_b 4; chain_c 3]).
Proof.
  apply duplicate_note_iff_cluster. repeat constructor.
Defined.

Lemma cluster_result_fields (c : list paper) :
  c <> [] -> Forall has_fields c -> has_fields (cluster_result c).
Proof.
  intros Hne Hc.
  assert (Hw : has_fields (winner c)).
  { rewrite Forall_forall in Hc. apply Hc. apply winner_In. exact Hne. }
  destruct c as [|d1 [|d2 ds]]; [congruence | exact Hw|].
  destruct Hw as [Hl Hs]. unfold has_fields, cluster_result, resolve_cluster.
  change (1 <? length (d1 :: d2 :: ds)) with true. cbv iota.
  destruct (merge_links (d1 :: d2 :: ds)); simpl; split;
    try discriminate; assumption.
Qed.

Lemma detect_duplicates_has_fields (results : list paper) :
  Forall has_fields results -> Forall has_fields (detect_duplicates results).
Proof.
  intros H. rewrite detect_duplicates_clusters.
  assert (Hcs : Forall (Forall has_fields)
                       (fuzzy_clusters (exact_pass results))).
  { apply fuzzy_clusters_Forall. apply exact_pass_Forall; [|exact H].
    intros stored p [Hl Hs]. unfold has_fields, merged_into.
    destruct (links p) as [lp|]; [|split; assumption].
    destruct (links stored) as [ls|] eqn:E; [|congruence].
    simpl. split; [discriminate | exact Hs]. }
  pose proof (fuzzy_clusters_nonempty (exact_pass results)) as Hne.
  induction Hcs as [|c cs Hc _ IH]; simpl; [constructor|].
  inversion Hne; subst. constructor; [|auto].
  apply cluster_result_fields; assumption.
Qed.

Lemma cluster_result_count (c : list paper) :
  Forall (fun p => duplicate_count p = None) c ->
  duplicate_count (cluster_result c) = None
  \/ exists n, duplicate_count (cluster_result c) = Some n /\ (2 <= n)%Z.
Proof.
  intros Hc. destruct c as [|d1 [|d2 ds]].
  - left. reflexivity.
  - left. inversion Hc; subst. assumption.
  - right. exists (Z.of_nat (length (d1 :: d2 :: ds))). split.
    + apply (resolve_cluster_many (anchor (d1 :: d2 :: ds)) d1 d2 ds).
    + simpl length. lia.
Qed.

(** X15.  When every input record has its links and its score and none
    has a duplicate count, every output record has its links and its
    score, and its duplicate count is either absent or at least 2: the
    resolver never writes a count of 0 or 1. *)
Theorem detect_duplicates_keeps_fields (results : list paper) :
  Forall has_fields results ->
  Forall (fun p => duplicate_count p = None) results ->
  Forall (fun o =>
            has_fields o
            /\ (duplicate_count o = None
                \/ exists n, duplicate_count o = Some n /\ (2 <= n)%Z))
         (detect_duplicates results).
Proof.
  intros Hf Hnone.
  pose proof (detect_duplicates_has_fields Hf) as H1.
  assert (H2 : Forall (fun o =>
                         duplicate_count o = None
                         \/ exists n, duplicate_count o = Some n
                                      /\ (2 <= n)%Z)
                      (detect_duplicates results)).
  { rewrite detect_duplicates_clusters.
    assert (Hcs : Forall (Forall (fun p => duplicate_count p = None))
                         (fuzzy_clusters (exact_pass results))).
    { apply fuzzy_clusters_Forall. apply exact_pass_Forall; [|exact Hnone].
      intros stored p H. unfold merged_into.
      destruct (links p), (links stored); exact H. }
    induction Hcs as [|c cs Hc _ IH]; simpl; constructor; [|exact IH].
    apply cluster_result_count. exact Hc. }
  rewrite Forall_forall in *. intros o Ho. split; auto.
Qed.

Lemma detect_duplicates_keeps_fields_witness :
  Forall (fun o =>
            has_fields o
            /\ (duplicate_count o = None
                \/ exists n, duplicate_count o = Some n /\ (2 <= n)%Z))
         (detect_duplicates [chain_a 5; chain_b 4; chain_c 3]).
Proof.
  apply detect_duplicates_keeps_fields.
  - repeat constructor; discriminate.
  - repeat constructor.
Defined.

(* ================================================================== *)
(** * Further properties: from the hits to the ranking *)

Lemma keep_hits_In (hits : list candidate) (p : paper) :
  In p (keep_hits hits) <-> exists c, In c hits /\ keep_hit c = Some p.
Proof.
  induction hits as [|c hits IH]; simpl.
  - split; [tauto | intros [c [[] _]]].
  - destruct (keep_hit c) as [q|] eqn:E; simpl; rewrite IH; split.
    + intros [<- | [c' [H1 H2]]]; eauto.
    + intros [c' [[<- | H1] H2]]; [left; congruence | eauto].
    + intros [c' [H1 H2]]; eauto.
    + intros [c' [[<- | H1] H2]]; [congruence | eauto].
Qed.

Lemma keep_hit_Some (c : candidate) (p : paper) :
  keep_hit c = Some p ->
  hit_relevant c = true
  /\ title p = c_title c /\ source p = c_source c
  /\ relevance_score p = Some (hit_score c)
  /\ links p = Some (c_links c) /\ duplicate_count p = None.
Proof.
  unfold keep_hit, hit_relevant, hit_score.
  destruct (_ || _); [|discriminate].
  intros E. inversion E; subst. simpl. repeat split; reflexivity.
Qed.

Lemma score_nonneg (title abstract : str) :
  (0 <= calculate_relevance_score title abstract)%Z.
Proof.
  rewrite score_as_sum.
  pose proof keywords_positive as Hw.
  induction Hw as [|kw l Hkw _ IH]; simpl; [lia|].
  apply Z.add_nonneg_nonneg; [|exact IH].
  apply Z.mul_nonneg_nonneg; lia.
Qed.

Lemma detect_duplicates_identity (results : list paper) (o : paper) :
  In o (detect_duplicates results) ->
  exists r, In r results /\ same_identity o r.
Proof.
  intros Ho. rewrite detect_duplicates_clusters in Ho.
  apply in_map_iff in Ho. destruct Ho as [c [<- Hc]].
  pose proof (fuzzy_clusters_perm (exact_pass results)) as Hperm.
  pose proof (fuzzy_clusters_nonempty (exact_pass results)) as Hne.
  rewrite Forall_forall in Hne. specialize (Hne c Hc).
  assert (Hin : In (winner c) (exact_pass results)).
  { apply (Permutation_in _ Hperm). apply in_concat. exists c.
    split; [exact Hc | apply winner_In; exact Hne]. }
  pose proof (exact_pass_identity results) as Hex.
  rewrite Forall_forall in Hex. destruct (Hex _ Hin) as [r [Hr Hid]].
  exists r. split; [exact Hr|].
  apply (same_identity_trans (cluster_result_winner Hne) Hid).
Qed.

(** X16.  Every record of the ranking carries the title of a hit that
    passed the relevance test and the keyword score of that hit, which is
    not negative; it has links; and hits that fail the test leave no
    trace: when no hit passes, the ranking is empty. *)
Theorem ranking_from_relevant_hits (batches : list (list candidate)) :
  (forall o, In o (search_hits batches) ->
     exists c, In c (concat batches)
               /\ hit_relevant c = true
               /\ title o = c_title c
               /\ relevance_score o = Some (hit_score c)
               /\ (0 <= get_score o)%Z
               /\ links o <> None)
  /\ ((forall c, In c (concat batches) -> hit_relevant c = false) ->
      search_hits batches = []).
Proof.
  assert (Hcollect : forall p, In p (collect batches) ->
                       exists c, In c (concat batches) /\ keep_hit c = Some p).
  { intros p Hp. unfold collect in Hp. apply in_flat_map in Hp.
    destruct Hp as [b [Hb Hp]]. apply keep_hits_In in Hp.
    destruct Hp as [c [Hc E]]. exists c. split; [|exact E].
    apply in_concat. exists b. auto. }
  split.
  - intros o Ho. unfold search_hits, search_all_sources in Ho.
    apply (Permutation_in _ (Permutation_sym (sort_by_score_desc_perm _)))
      in Ho.
    assert (Hf : has_fields o).
    { assert (H : Forall has_fields (collect batches)).
      { apply Forall_forall. intros p Hp.
        destruct (Hcollect p Hp) as [c [_ E]].
        destruct (keep_hit_Some _ E) as [_ [_ [_ [Hs [Hl _]]]]].
        split; congruence. }
      apply detect_duplicates_has_fields in H.
      rewrite Forall_forall in H. apply H. exact Ho. }
    destruct (detect_duplicates_identity _ _ Ho) as [r [Hr [Ht Hs]]].
    destruct (Hcollect r Hr) as [c [Hc E]].
    destruct (keep_hit_Some _ E) as [Hrel [Htc [_ [Hsc _]]]].
    exists c. split; [exact Hc|]. split; [exact Hrel|].
    split; [congruence|]. split; [congruence|]. split; [|apply Hf].
    unfold get_score. rewrite Hs, Hsc.
    change (0 <= hit_score c)%Z. unfold hit_score.
    exact (score_nonneg (c_title c) (c_summary c)).
  - intros Hnone. unfold search_hits.
    replace (collect batches) with (@nil paper); [reflexivity|].
    symmetry. destruct (collect batches) as [|p l] eqn:E; [reflexivity|].
    destruct (Hcollect p) as [c [Hc Ea]]; [left; reflexivity|].
    destruct (keep_hit_Some _ Ea) as [Hrel _].
    rewrite (Hnone c Hc) in Hrel. discriminate.
Qed.

(* ================================================================== *)
(** * Further properties: presentation *)

Lemma join_split (sep : str) (parts : list str) (x : str) :
  In x parts -> exists pre post, join sep parts = pre ++ x ++ post.
Proof.
  induction parts as [|y rest IH]; intros Hin; [destruct Hin|].
  destruct rest as [|z rest'].
  - destruct Hin as [<- | []]. exists [], []. simpl.
    rewrite app_nil_r. reflexivity.
  - change (join sep (y :: z :: rest'))
      with (y ++ sep ++ join sep (z :: rest')).
    destruct Hin as [<- | Hin].
    + exists [], (sep ++ join sep (z :: rest')). reflexivity.
    + destruct (IH Hin) as [pre [post E]].
      exists (y ++ sep ++ pre), post. rewrite E, <- !app_assoc. reflexivity.
Qed.

Lemma join_contains (sep : str) (parts : list str) (x : str) :
  In x parts -> contains (join sep parts) x = true.
Proof. intros H. apply contains_app. apply join_split. exact H. Qed.

Lemma join_length (sep : str) (parts : list str) :
  length (join sep parts)
  = list_sum (map (@length ascii) parts)
    + length sep * (length parts - 1).
Proof.
  induction parts as [|y rest IH]; [simpl; lia|].
  destruct rest as [|z rest'].
  - simpl. lia.
  - change (join sep (y :: z :: rest'))
      with (y ++ sep ++ join sep (z :: rest')).
    rewrite !length_app, IH. simpl length. simpl map. simpl list_sum. nia.
Qed.

Lemma count_char_app (c : ascii) (s t : str) :
  count_char c (s ++ t) = count_char c s + count_char c t.
Proof. unfold count_char. rewrite filter_app, length_app. reflexivity. Qed.

Lemma count_char_zero (c : ascii) (s : str) :
  ~ In c s -> count_char c s = 0.
Proof.
  unfold count_char. induction s as [|x s IH]; simpl; intros H; [reflexivity|].
  destruct (Ascii.eqb c x) eqn:E.
  - apply Ascii.eqb_eq in E. subst. tauto.
  - apply IH. tauto.
Qed.

Lemma join_count_char (c : ascii) (sep : str) (parts : list str) :
  Forall (fun x => count_char c x = 0) parts ->
  count_char c (join sep parts) = count_char c sep * (length parts - 1).
Proof.
  induction 1 as [|y rest Hy Hrest IH];
    [change (join sep []) with (@nil ascii); cbn [length];
     rewrite Nat.mul_0_r; reflexivity|].
  destruct rest as [|z rest'].
  - change (join sep [y]) with y. rewrite Hy. cbn [length].
    rewrite Nat.sub_diag, Nat.mul_0_r. reflexivity.
  - change (join sep (y :: z :: rest'))
      with (y ++ sep ++ join sep (z :: rest')).
    rewrite !count_char_app, IH, Hy. cbn [length]. nia.
Qed.

Lemma names_of_dicts_Ok (l : list author) (names : list str) :
  names_of_dicts l = Ok names -> names = map author_text l.
Proof.
  revert names; induction l as [|[d | n] l IH]; intros names E; simpl in E.
  - inversion E. reflexivity.
  - destruct (names_of_dicts l) as [ns | e]; [|discriminate].
    inversion E; subst. simpl. rewrite <- (IH ns eq_refl). reflexivity.
  - discriminate.
Qed.

Lemma names_of_strings_Ok (l : list author) (names : list str) :
  names_of_strings l = Ok names -> names = map author_text l.
Proof.
  revert names; induction l as [|[d | n] l IH]; intros names E; simpl in E.
  - inversion E. reflexivity.
  - discriminate.
  - destruct (names_of_strings l) as [ns | e]; [|discriminate].
    inversion E; subst. simpl. rewrite <- (IH ns eq_refl). reflexivity.
Qed.

Lemma names_of_dicts_Raise (l : list author) :
  (exists e, names_of_dicts l = Raise e)
  <-> exists n, In (AuthorName n) l.
Proof.
  induction l as [|[d | n] l IH]; simpl.
  - split; [intros [e H]; discriminate | intros [n []]].
  - destruct (names_of_dicts l) as [ns | e].
    + split; [intros [e H]; discriminate|].
      intros [n [H | H]]; [discriminate|].
      destruct (proj2 IH (ex_intro _ n H)) as [e He]. discriminate.
    + split; [|eauto]. intros _.
      destruct (proj1 IH (ex_intro _ e eq_refl)) as [n Hn]. eauto.
  - split; eauto.
Qed.

Lemma names_of_strings_Raise (l : list author) :
  (exists e, names_of_strings l = Raise e)
  <-> exists d, In (AuthorDict d) l.
Proof.
  induction l as [|[d | n] l IH]; simpl.
  - split; [intros [e H]; discriminate | intros [n []]].
  - split; eauto.
  - destruct (names_of_strings l) as [ns | e].
    + split; [intros [e H]; discriminate|].
      intros [d [H | H]]; [discriminate|].
      destruct (proj2 IH (ex_intro _ d H)) as [e He]. discriminate.
    + split; [|eauto]. intros _.
      destruct (proj1 IH (ex_intro _ e eq_refl)) as [d Hd]. eauto.
Qed.

Lemma names_of_dicts_error (l : list author) (e : py_error) :
  names_of_dicts l = Raise e -> e = AttributeError.
Proof.
  induction l as [|[d | n] l IH]; simpl; intros E.
  - discriminate.
  - destruct (names_of_dicts l); [discriminate|]. inversion E; subst. auto.
  - inversion E. reflexivity.
Qed.

Lemma names_of_strings_error (l : list author) (e : py_error) :
  names_of_strings l = Raise e -> e = TypeError.
Proof.
  induction l as [|[d | n] l IH]; simpl; intros E.
  - discriminate.
  - inversion E. reflexivity.
  - destruct (names_of_strings l); [discriminate|]. inversion E; subst. auto.
Qed.

(** X17.  [format_authors] fails exactly on a list that mixes dicts and
    names: with [AttributeError] when the list starts with a dict, with
    [TypeError] when it starts with a name.  [None] and a text never
    fail. *)
Theorem format_authors_raises (l : list author) (e : py_error) :
  (format_authors (AuthorsList l) = Raise e <->
   (e = AttributeError
    /\ exists d rest n, l = AuthorDict d :: rest /\ In (AuthorName n) rest)
   \/ (e = TypeError
       /\ exists n rest d, l = AuthorName n :: rest /\ In (AuthorDict d) rest))
  /\ format_authors AuthorsNone <> Raise e
  /\ forall s, format_authors (AuthorsText s) <> Raise e.
Proof.
  split; [|split; [discriminate | intros [|c s]; discriminate]].
  destruct l as [|[d | n] rest].
  - simpl. split; [intros H; discriminate H|].
    intros [[_ [d [r [n [H _]]]]] | [_ [n [r [d [H _]]]]]]; discriminate H.
  - unfold format_authors.
    destruct (names_of_dicts (AuthorDict d :: rest)) as [ns | e'] eqn:E.
    + split; [intros H; discriminate H|].
      intros [[_ [d' [r [n [H Hn]]]]] | [_ [n [r [d' [H _]]]]]];
        [|discriminate H].
      inversion H; subst.
      destruct (proj2 (names_of_dicts_Raise (AuthorDict d' :: r)))
        as [e'' He]; [exists n; right; exact Hn|]. congruence.
    + pose proof (names_of_dicts_error _ E) as ->. split.
      * intros H. inversion H; subst. left. split; [reflexivity|].
        destruct (proj1 (names_of_dicts_Raise (AuthorDict d :: rest)))
          as [n [Hn | Hn]]; [eauto | discriminate Hn|].
        exists d, rest, n. auto.
      * intros [[-> _] | [_ [n [r [d' [H _]]]]]];
          [reflexivity | discriminate H].
  - unfold format_authors.
    destruct (names_of_strings (AuthorName n :: rest)) as [ns | e'] eqn:E.
    + split; [intros H; discriminate H|].
      intros [[_ [d' [r [n' [H _]]]]] | [_ [n' [r [d' [H Hd]]]]]];
        [discriminate H|].
      inversion H; subst.
      destruct (proj2 (names_of_strings_Raise (AuthorName n' :: r)))
        as [e'' He]; [exists d'; right; exact Hd|]. congruence.
    + pose proof (names_of_strings_error _ E) as ->. split.
      * intros H. inversion H; subst. right. split; [reflexivity|].
        destruct (proj1 (names_of_strings_Raise (AuthorName n :: rest)))
          as [d [Hd | Hd]]; [eauto | discriminate Hd|].
        exists n, rest, d. auto.
      * intros [[_ [d' [r [n' [H _]]]]] | [-> _]];
          [discriminate H | reflexivity].
Qed.

(** X18.  Where [format_authors] accepts a non-empty list, it shows every
    item: the text is the items' names joined by ", ", every name occurs
    in it, and its length is the length of the names plus two characters
    between neighbours. *)
Theorem format_authors_shows_all (l : list author) (r : str) :
  l <> [] ->
  format_authors (AuthorsList l) = Ok r ->
  r = join (s_ ", ") (map author_text l)
  /\ (forall a, In a l -> contains r (author_text a) = true)
  /\ length r
     = list_sum (map (fun a => length (author_text a)) l)
       + 2 * (length l - 1).
Proof.
  intros Hne E.
  assert (Er : r = join (s_ ", ") (map author_text l)).
  { destruct l as [|[d | n] rest]; [congruence| |]; unfold format_authors in E.
    - destruct (names_of_dicts (AuthorDict d :: rest)) as [ns | e] eqn:En;
        [|discriminate].
      apply names_of_dicts_Ok in En. inversion E; subst. reflexivity.
    - destruct (names_of_strings (AuthorName n :: rest)) as [ns | e] eqn:En;
        [|discriminate].
      apply names_of_strings_Ok in En. inversion E; subst. reflexivity. }
  split; [exact Er|]. split.
  - intros a Ha. rewrite Er. apply join_contains. apply in_map. exact Ha.
  - rewrite Er, join_length, map_map, length_map. reflexivity.
Qed.

Lemma format_authors_shows_all_witness :
  let l := [AuthorDict [(s_ "name", s_ "Sankaranarayanan R")];
            AuthorDict [(s_ "authtype", s_ "Author")]] in
  let r := s_ "Sankaranarayanan R, " in
  r = join (s_ ", ") (map author_text l)
  /\ (forall a, In a l -> contains r (author_text a) = true)
  /\ length r
     = list_sum (map (fun a => length (author_text a)) l)
       + 2 * (length l - 1).
Proof.
  apply format_authors_shows_all; [discriminate | reflexivity].
Defined.

Lemma title_char_no_LF (c : ascii) : c <> LF -> ~ In LF (title_char c).
Proof.
  destruct c as [[] [] [] [] [] [] [] []]; intros H; vm_compute;
    intros E; repeat (destruct E as [E | E]; [try discriminate E|]);
    try exact E; apply H; reflexivity.
Qed.

Lemma lower_char_not_LF (c : ascii) : c <> LF -> lower_char c <> LF.
Proof.
  destruct c as [[] [] [] [] [] [] [] []]; intros H; vm_compute; intros E;
    try discriminate E; apply H; reflexivity.
Qed.


Lemma capitalize_no_LF (s : str) : ~ In LF s -> ~ In LF (capitalize s).
Proof.
  destruct s as [|c rest]; simpl; [tauto|]. intros H Hin.
  apply in_app_or in Hin. destruct Hin as [Hin | Hin].
  - apply (@title_char_no_LF c); [intros ->; tauto | exact Hin].
  - unfold lower in Hin. apply in_map_iff in Hin.
    destruct Hin as [x [E Hx]].
    apply (@lower_char_not_LF x); [intros ->; tauto | exact E].
Qed.

Lemma link_label_no_LF (key : str) : ~ In LF key -> ~ In LF (link_label key).
Proof.
  intros H. unfold link_label.
  destruct (dict_get link_labels key) as [label|] eqn:E.
  - apply dict_get_Some in E.
    assert (Hall : Forall (fun kv : str * str => ~ In LF (snd kv))
                          link_labels).
    { unfold link_labels. repeat constructor; simpl; intros Hin;
        repeat (destruct Hin as [Hin | Hin]; [discriminate Hin|]);
        exact Hin. }
    rewrite Forall_forall in Hall. apply (Hall _ E).
  - apply capitalize_no_LF. exact H.
Qed.

Lemma link_line_no_LF (kv : str * str) :
  ~ In LF (fst kv) -> ~ In LF (snd kv) -> count_char LF (link_line kv) = 0.
Proof.
  intros Hk Hu. apply count_char_zero. unfold link_line. intros Hin.
  apply in_app_or in Hin. destruct Hin as [Hin | Hin].
  - apply (@link_label_no_LF _ Hk Hin).
  - apply in_app_or in Hin. destruct Hin as [Hin | Hin]; [|tauto].
    simpl in Hin. destruct Hin as [Hin | [Hin | []]]; discriminate Hin.
Qed.

Lemma In_join_first (sep : str) (x : str) (rest : list str) (c : ascii) :
  In c x -> In c (join sep (x :: rest)).
Proof.
  intros H. destruct rest as [|y rest']; [exact H|].
  change (join sep (x :: y :: rest')) with (x ++ sep ++ join sep (y :: rest')).
  apply in_or_app. left. exact H.
Qed.

(** X19.  [format_links] answers "No links available" exactly when there
    are no links; so under the guard of [main], which asks for links
    first, that text is never printed. *)
Theorem format_links_fallback (ls : option (dict str)) (p : paper)
    (t : str) :
  (format_links ls = s_ "No links available"
   <-> ls = None \/ ls = Some [])
  /\ (links_display p = Some t -> t <> s_ "No links available").
Proof.
  assert (H : forall kv l,
             format_links (Some (kv :: l)) <> s_ "No links available").
  { intros kv l E.
    assert (Hc : In ":"%char (format_links (Some (kv :: l)))).
    { unfold format_links. simpl map. apply In_join_first.
      unfold link_line. apply in_or_app. right. left. reflexivity. }
    rewrite E in Hc. simpl in Hc.
    repeat (destruct Hc as [Hc | Hc]; [discriminate Hc|]). exact Hc. }
  split.
  - split.
    + destruct ls as [[|kv l]|]; auto. intros E. destruct (H _ _ E).
    + intros [-> | ->]; reflexivity.
  - unfold links_display. destruct (links p) as [[|kv l]|];
      try discriminate.
    intros E. inversion E; subst. apply H.
Qed.

(** X20.  With links whose keys and addresses hold no line break,
    [format_links] prints one line per link: the text has one line break
    fewer than there are links, and the line of every link occurs in
    it. *)
Theorem format_links_lines (l : dict str) :
  l <> [] ->
  Forall (fun kv : str * str => ~ In LF (fst kv) /\ ~ In LF (snd kv)) l ->
  count_char LF (format_links (Some l)) = length l - 1
  /\ forall kv, In kv l ->
       contains (format_links (Some l)) (link_line kv) = true.
Proof.
  intros Hne Hl. destruct l as [|kv0 l0]; [congruence|].
  unfold format_links. split.
  - rewrite join_count_char.
    + rewrite length_map. change (count_char LF line_sep) with 1. lia.
    + apply Forall_forall. intros x Hx. apply in_map_iff in Hx.
      destruct Hx as [kv [<- Hkv]]. rewrite Forall_forall in Hl.
      destruct (Hl kv Hkv). apply link_line_no_LF; assumption.
  - intros kv Hkv. apply join_contains. apply in_map. exact Hkv.
Qed.

Lemma format_links_lines_witness :
  let l := [(s_ "pubmed", s_ "https://pubmed.ncbi.nlm.nih.gov/1/");
            (s_ "fulltext",
             s_ "https://www.ncbi.nlm.nih.gov/pmc/articles/pmid/1/")] in
  count_char LF (format_links (Some l)) = length l - 1
  /\ forall kv, In kv l ->
       contains (format_links (Some l)) (link_line kv) = true.
Proof.
  apply format_links_lines; [discriminate|].
  repeat constructor; simpl; intros Hin;
    repeat (destruct Hin as [Hin | Hin]; [discriminate Hin|]); exact Hin.
Defined.



(* ================================================================== *)
(** * Text outside ASCII

    The tables at work on Latin-1 characters: a letter with an accent is a
    word character and has a case, the no-break space is white space, and
    the sharp s is capitalised to two characters. *)

Lemma score_next_to_accented_letter :
  calculate_relevance_score (s_ "hpv" ++ [e_acute] ++ s_ " screening") []
  = 1%Z
  /\ calculate_relevance_score (s_ "hpv" ++ [e_acute]) [] = 0%Z
  /\ calculate_relevance_score (s_ "hpv " ++ [e_acute]) [] = 2%Z.
Proof. repeat split; vm_compute; reflexivity. Qed.

Lemma similarity_of_accented_case :
  (calculate_similarity [E_acute] [e_acute] == 1)%Q
  /\ (calculate_similarity [E_acute] (s_ "e") == 0)%Q.
Proof. split; vm_compute; reflexivity. Qed.

Lemma title_key_strips_nbsp :
  title_key (chain_paper "HPV testing" 1)
  = title_key (mkPaper (nbsp :: s_ "HPV Testing" ++ [nbsp]) (s_ "arXiv")
                       (Some 1%Z) (Some []) None).
Proof. vm_compute. reflexivity. Qed.

Lemma capitalize_sharp_s :
  capitalize (sharp_s :: s_ "X") = s_ "Ssx"
  /\ capitalize (e_acute :: s_ "X") = E_acute :: s_ "x".
Proof. split; vm_compute; reflexivity. Qed.
